(** * Ranking metrics, label vectors and the validation split of the
      TED-talks keyword-labelling notebook

    The notebook's own Python code is embedded as Rocq functions.

    - Floating-point numbers are idealised as real numbers ([R]); [np.log2]
      is the real base-2 logarithm.
    - A Python exception is an explicit outcome [Raise e] of the [result]
      monad.  A division of Python numbers by zero raises
      [ZeroDivisionError]; a division of numpy scalars by zero raises
      nothing and gives nan or an infinity, the value [NanInf] of
      [np_float].
    - [scores_at_k] prints its four values; the model returns them. *)

From Stdlib Require Import Reals Lra Lia List Arith ZArith QArith Qround.
From Stdlib Require Import Permutation Sorted.
From Stdlib Require String.
Import ListNotations.
Import String.StringSyntax.
Delimit Scope string_scope with string.

Local Open Scope R_scope.

(** ** Python run-time model *)

Module Py.

Inductive exn : Type :=
| ZeroDivisionError
| IndexError
| ImportError
| OSError
| ValueError.

Inductive result (A : Type) : Type :=
| Ok (a : A)
| Raise (e : exn).

Arguments Ok {A} a.
Arguments Raise {A} e.

Definition bind {A B} (c : result A) (f : A -> result B) : result B :=
  match c with
  | Ok a => f a
  | Raise e => Raise e
  end.

(** [try: body except cls: handler] for a handler that catches one
    exception class. *)
Definition exn_eqb (a b : exn) : bool :=
  match a, b with
  | ZeroDivisionError, ZeroDivisionError
  | IndexError, IndexError
  | ImportError, ImportError
  | OSError, OSError
  | ValueError, ValueError => true
  | _, _ => false
  end.

Definition try_except {A} (body : result A) (cls : exn) (handler : result A)
  : result A :=
  match body with
  | Ok a => Ok a
  | Raise e => if exn_eqb e cls then handler else Raise e
  end.

(** [x / y] where a zero denominator raises: Python numbers, and numpy
    scalars whose denominator is never zero. *)
Definition div (x y : R) : result R :=
  if Req_dec_T y 0 then Raise ZeroDivisionError else Ok (x / y).

(** [l[i]] for a non-negative index *)
Definition getitem {A} (l : list A) (i : nat) : result A :=
  match nth_error l i with
  | Some x => Ok x
  | None => Raise IndexError
  end.

(** [for x in xs: s = body x s] *)
Fixpoint for_each {A S} (xs : list A) (body : A -> S -> result S) (s : S)
  : result S :=
  match xs with
  | [] => Ok s
  | x :: xs' => bind (body x s) (for_each xs' body)
  end.

(** [for i in range(n): s = body i s] *)
Definition for_range {S} (n : nat) (body : nat -> S -> result S) (s : S)
  : result S :=
  for_each (seq 0 n) body s.

(** [sorted(l, reverse=True, key=key)].  Python's sort is stable, also
    with [reverse=True]: elements with equal keys keep their original
    order.  The stable descending order is computed by insertion: the
    head, which precedes the whole tail in the input, goes after exactly
    the elements with a strictly greater key. *)
Fixpoint insert_rev {A} (key : A -> R) (x : A) (l : list A) : list A :=
  match l with
  | [] => [x]
  | y :: l' =>
      if Rlt_dec (key x) (key y) then y :: insert_rev key x l'
      else x :: y :: l'
  end.

Fixpoint sorted_rev {A} (key : A -> R) (l : list A) : list A :=
  match l with
  | [] => []
  | x :: l' => insert_rev key x (sorted_rev key l')
  end.

(** Slice bounds: a negative bound counts from the end, and every bound
    is clipped to [0, len]. *)
Definition slice_index (len : nat) (i : Z) : nat :=
  if (i <? 0)%Z then Z.to_nat (Z.max 0 (i + Z.of_nat len))
  else Nat.min (Z.to_nat i) len.

(** [l[:stop]] *)
Definition slice_to {A} (l : list A) (stop : Z) : list A :=
  firstn (slice_index (length l) stop) l.

(** [l[start:]] *)
Definition slice_from {A} (l : list A) (start : Z) : list A :=
  skipn (slice_index (length l) start) l.

(** [int(q)]: truncation towards zero *)
Definition int (q : Q) : Z := Z.quot (Qnum q) (Zpos (Qden q)).

(** [labels[i] = v] on an array: an index past the end raises. *)
Fixpoint set_nth {A} (l : list A) (i : nat) (v : A) : option (list A) :=
  match l, i with
  | [], _ => None
  | _ :: l', O => Some (v :: l')
  | x :: l', S i' => option_map (cons x) (set_nth l' i' v)
  end.

Definition setitem {A} (l : list A) (i : nat) (v : A) : result (list A) :=
  match set_nth l i v with
  | Some l' => Ok l'
  | None => Raise IndexError
  end.

End Py.

Import Py.

Declare Scope py_scope.
Delimit Scope py_scope with py.
Notation "x <- c ;; k" := (bind c (fun x => k))
  (at level 61, c at next level, right associativity) : py_scope.
Local Open Scope py_scope.

(** ** numpy *)

(** [np.log2] *)
Definition log2 (x : R) : R := ln x / ln 2.

(** [np.sum] of a vector *)
Definition np_sum (v : list R) : R := fold_left Rplus v 0.

(** [np.zeros(n)] *)
Definition np_zeros (n : nat) : list R := repeat 0 n.

(** The value of a numpy float expression: a number, or a non-finite
    value.  [NanInf] stands for nan, inf and -inf together.  In every
    operation of the notebook that can meet a non-finite operand the
    result is again non-finite: sums and products, the quotient
    [(pr*rc)/(pr+rc)], whose two operands are infinite together, and the
    quotients by [len(truevals)]. *)
Inductive np_float : Type :=
| Fin (x : R)
| NanInf.

Coercion Fin : R >-> np_float.

(** [a + b] and [a * b] on numpy scalars *)
Definition np_add (a b : np_float) : np_float :=
  match a, b with
  | Fin x, Fin y => Fin (x + y)
  | _, _ => NanInf
  end.

Definition np_mul (a b : np_float) : np_float :=
  match a, b with
  | Fin x, Fin y => Fin (x * y)
  | _, _ => NanInf
  end.

(** [a / b] on numpy scalars: a zero denominator gives nan or an infinity
    (with a RuntimeWarning), not an exception. *)
Definition np_div (a b : np_float) : np_float :=
  match a, b with
  | Fin x, Fin y => if Req_dec_T y 0 then NanInf else Fin (x / y)
  | _, _ => NanInf
  end.

(** ** Ranking metrics *)

(** [[
def dcg_at_k(vals, k):
    res = 0
    for i in range(k):
        res += vals[i][1] / np.log2(i + 2)
    return res
]] *)
Definition dcg_at_k (vals : list (R * R)) (k : nat) : result R :=
  for_range k
    (fun i res =>
       v <- getitem vals i ;;
       d <- div (snd v) (log2 (INR (i + 2))) ;;
       Ok (res + d))
    0.

(** The four accumulators of [scores_at_k]. *)
Record scores : Type := mkScores {
  precision_at_k : np_float;
  recall_at_k : np_float;
  f1score_at_k : np_float;
  ndcg_at_k : np_float
}.

(** The constant added to the ideal DCG. *)
Definition epsilon : R := 0.00000001.

(** The inner loop [for i in range(k): truesum += sorted_z[i][1]]. *)
Definition truesum_at_k (sorted_z : list (R * R)) (k : nat) : result R :=
  for_range k
    (fun i truesum =>
       v <- getitem sorted_z i ;;
       Ok (truesum + snd v))
    0.

(** The body of the loop over the samples [j].

    [pr = truesum / k] has a zero denominator only for [k = 0], and then
    [truesum] is still the Python integer 0: the division raises.  The
    denominators [np.sum(truevals[0])], [pr + rc] and
    [dcg_at_k(opt_z, k) + 0.00000001] are numpy scalars, so the divisions
    computing [rc], the F1 term and [cg] never raise. *)
Definition sample_step (truevals predvals : list (list R)) (k : nat)
    (j : nat) (acc : scores) : result scores :=
  pj <- getitem predvals j ;;
  tj <- getitem truevals j ;;
  let z := combine pj tj in
  let sorted_z := sorted_rev fst z in
  let opt_z := sorted_rev snd z in
  truesum <- truesum_at_k sorted_z k ;;
  pr <- div truesum (INR k) ;;
  t0 <- getitem truevals 0 ;;
  let rc := np_div truesum (np_sum t0) in
  let f1 := if Rlt_dec 0 truesum
            then np_add (f1score_at_k acc)
                        (np_mul 2 (np_div (np_mul pr rc) (np_add pr rc)))
            else f1score_at_k acc in
  d <- dcg_at_k sorted_z k ;;
  o <- dcg_at_k opt_z k ;;
  let cg := np_div d (o + epsilon) in
  Ok (mkScores (np_add (precision_at_k acc) pr) (np_add (recall_at_k acc) rc)
               f1 (np_add (ndcg_at_k acc) cg)).

(** [acc /= len(truevals)].  With no sample the accumulator is still the
    Python integer 0 and the division raises; otherwise the denominator is
    not zero. *)
Definition div_by_len (acc : np_float) (n : nat) : result np_float :=
  if (n =? 0)%nat then Raise ZeroDivisionError else Ok (np_div acc (INR n)).

(** [scores_at_k(truevals, predvals, k)]: the values it prints. *)
Definition scores_at_k (truevals predvals : list (list R)) (k : nat)
  : result scores :=
  acc <- for_range (length truevals) (sample_step truevals predvals k)
           (mkScores 0 0 0 0) ;;
  let n := length truevals in
  p <- div_by_len (precision_at_k acc) n ;;
  r <- div_by_len (recall_at_k acc) n ;;
  f <- div_by_len (f1score_at_k acc) n ;;
  g <- div_by_len (ndcg_at_k acc) n ;;
  Ok (mkScores p r f g).

(** ** Label vectors *)

Definition NLABELS : nat := 100.

(** [[
def indices_to_labels(x):
    labels = np.zeros(NLABELS)
    for i in x:
        if i < NLABELS:
            labels[i] = 1
    return labels
]] *)
Definition indices_to_labels (x : list nat) : result (list R) :=
  for_each x
    (fun i labels => if (i <? NLABELS)%nat then setitem labels i 1
                     else Ok labels)
    (np_zeros NLABELS).

(** ** Training / validation split *)

(** [VALIDATION_SPLIT = 0.2], the decimal read as the rational 2/10. *)
Definition VALIDATION_SPLIT : Q := 0.2%Q.

(** [num_validation_samples = int(VALIDATION_SPLIT * data.shape[0])] *)
Definition num_validation_samples (n : nat) : Z :=
  int (VALIDATION_SPLIT * inject_Z (Z.of_nat n))%Q.

(** [x_train = data[:-num_validation_samples]]; [y_train] is the same
    slice of [labels]. *)
Definition x_train {A} (data : list A) : list A :=
  slice_to data (- num_validation_samples (length data))%Z.

(** [x_val = data[-num_validation_samples:]]; [y_val] is the same slice of
    [labels]. *)
Definition x_val {A} (data : list A) : list A :=
  slice_from data (- num_validation_samples (length data))%Z.

(** ** Shuffling the rows *)

(** [a[indices]]: the rows of [a] at the positions listed in [indices];
    a position past the end raises. *)
Definition take {A} (a : list A) (indices : list nat) : result (list A) :=
  for_each indices (fun i rows => x <- getitem a i ;; Ok (rows ++ [x])) [].

(** [[
indices = np.arange(data.shape[0])
np.random.shuffle(indices)
data = data[indices]
labels = labels[indices]
...
x_train = data[:-num_validation_samples]
y_train = labels[:-num_validation_samples]
x_val = data[-num_validation_samples:]
y_val = labels[-num_validation_samples:]
]]
    [indices] is the index array after the shuffle.  The value is
    [((x_train, y_train), (x_val, y_val))]. *)
Definition shuffle_and_split {A B} (data : list A) (labels : list B)
    (indices : list nat)
  : result ((list A * list B) * (list A * list B)) :=
  data' <- take data indices ;;
  labels' <- take labels indices ;;
  Ok ((x_train data', x_train labels'), (x_val data', x_val labels')).

(** ** TensorBoard set-up cell *)

(** What the library calls of the cell do in a given environment. *)
Record tb_env (W : Type) : Type := mkTbEnv {
  import_tensorboardX : result unit;
  os_makedirs : result unit;
  SummaryWriter : result W
}.

Arguments import_tensorboardX {W} _.
Arguments os_makedirs {W} _.
Arguments SummaryWriter {W} _.

(** The body of the [try]. *)
Definition tensorboard_try {W} (env : tb_env W) : result (option W) :=
  _ <- import_tensorboardX env ;;
  _ <- os_makedirs env ;;
  w <- SummaryWriter env ;;
  Ok (Some w).

(** [[
try:
    import tensorboardX
    ...
    os.makedirs(logdir)
    log = tensorboardX.SummaryWriter(logdir)
except ImportError as e:
    log = None
]]
    The value is the binding of [log].  The statements left out
    ([import os, datetime], the path join and the [print]) are taken to
    succeed. *)
Definition tensorboard_cell {W} (env : tb_env W) : result (option W) :=
  try_except (tensorboard_try env) ImportError (Ok None).

(** ** Tag statistics *)

(** Tags are strings. *)
Abbreviation tag := String.string (only parsing).

(** A [dict] keyed by tags, as the list of its items in insertion order
    (the iteration order of Python 3.7 and later; an earlier Python
    iterates in an unspecified order, which can only change the relative
    order of tags with equal counts in [ntagslist_sorted]). *)
Definition dict (V : Type) : Type := list (tag * V).

(** [d.get(t)] *)
Fixpoint dict_get {V} (d : dict V) (t : tag) : option V :=
  match d with
  | [] => None
  | (t', v) :: d' => if String.eqb t t' then Some v else dict_get d' t
  end.

(** [[
if t in ntags:
    ntags[t] += 1
else:
    ntags[t] = 1
]] *)
Fixpoint count_tag (t : tag) (ntags : dict nat) : dict nat :=
  match ntags with
  | [] => [(t, 1%nat)]
  | (t', n) :: d =>
      if String.eqb t t' then (t', S n) :: d else (t', n) :: count_tag t d
  end.

(** [[
ntags = dict()
for tl in df['taglist']:
    for t in tl:
        ...
]] *)
Definition ntags (taglists : list (list tag)) : dict nat :=
  fold_left (fun d tl => fold_left (fun d' t => count_tag t d') tl d)
            taglists [].

(** [sorted(l, reverse=True, key=key)] for integer keys: the same stable
    insertion as [sorted_rev]. *)
Fixpoint insert_rev_nat {A} (key : A -> nat) (x : A) (l : list A) : list A :=
  match l with
  | [] => [x]
  | y :: l' =>
      if (key x <? key y)%nat then y :: insert_rev_nat key x l'
      else x :: y :: l'
  end.

Fixpoint sorted_rev_nat {A} (key : A -> nat) (l : list A) : list A :=
  match l with
  | [] => []
  | x :: l' => insert_rev_nat key x (sorted_rev_nat key l')
  end.

(** The key [ntags.get]; it is applied to keys of [ntags] only, where it
    is never [None]. *)
Definition ntags_get (d : dict nat) (t : tag) : nat :=
  match dict_get d t with
  | Some n => n
  | None => 0%nat
  end.

(** [ntagslist_sorted = sorted(ntags, key=ntags.get, reverse=True)] *)
Definition ntagslist_sorted (taglists : list (list tag)) : list tag :=
  sorted_rev_nat (ntags_get (ntags taglists)) (map fst (ntags taglists)).

(** [l.index(t)]; [None] stands for the [ValueError] raised when [t] is
    not in the list. *)
Fixpoint list_index (t : tag) (l : list tag) : option nat :=
  match l with
  | [] => None
  | t' :: l' =>
      if String.eqb t' t then Some 0%nat else option_map S (list_index t l')
  end.

(** [[
def tags_to_indices(x):
    ilist = []
    for t in x:
        ilist.append(ntagslist_sorted.index(t))
    return ilist
]]
    [None] stands for the [ValueError] of the first tag not found. *)
Fixpoint tags_to_indices (sorted : list tag) (x : list tag)
  : option (list nat) :=
  match x with
  | [] => Some []
  | t :: x' =>
      match list_index t sorted with
      | None => None
      | Some i => option_map (cons i) (tags_to_indices sorted x')
      end
  end.

(** The number of times a tag occurs in all the tag lists. *)
Definition occurrences (taglists : list (list tag)) (t : tag) : nat :=
  count_occ String.string_dec (concat taglists) t.

(** ** Embedding matrix *)

#[warnings="-abstract-large-number"]
Definition MAX_NUM_WORDS : nat := 10000.

(** [[
num_words = min(MAX_NUM_WORDS, len(word_index) + 1)
embedding_matrix = np.zeros((num_words, embedding_dim))
for word, i in word_index.items():
    if i >= MAX_NUM_WORDS:
        continue
    embedding_vector = embeddings_index.get(word)
    if embedding_vector is not None:
        embedding_matrix[i] = embedding_vector
]]
    The matrix is the list of its rows.  The assignment
    [embedding_matrix[i] = embedding_vector] first selects row [i], which
    raises [IndexError] when there is no such row, and then copies the
    vector into the row by numpy's broadcasting: a vector of
    [embedding_dim] entries is stored as it is, a vector of one entry
    fills the row, and a vector of any other length raises
    [ValueError]. *)
Definition num_words (word_index : dict nat) : nat :=
  Nat.min MAX_NUM_WORDS (length word_index + 1).

Definition broadcast_row (embedding_dim : nat) (embedding_vector : list R)
  : result (list R) :=
  if (length embedding_vector =? embedding_dim)%nat then Ok embedding_vector
  else if (length embedding_vector =? 1)%nat
       then Ok (repeat (hd 0 embedding_vector) embedding_dim)
       else Raise ValueError.

Definition embedding_step (embedding_dim : nat)
    (embeddings_index : dict (list R))
    (item : tag * nat) (embedding_matrix : list (list R))
  : result (list (list R)) :=
  if (MAX_NUM_WORDS <=? snd item)%nat then Ok embedding_matrix
  else match dict_get embeddings_index (fst item) with
       | Some embedding_vector =>
           _ <- getitem embedding_matrix (snd item) ;;
           row <- broadcast_row embedding_dim embedding_vector ;;
           setitem embedding_matrix (snd item) row
       | None => Ok embedding_matrix
       end.

Definition embedding_matrix (word_index : dict nat)
    (embeddings_index : dict (list R)) (embedding_dim : nat)
  : result (list (list R)) :=
  for_each word_index (embedding_step embedding_dim embeddings_index)
           (repeat (np_zeros embedding_dim) (num_words word_index)).

(** Every vector of [embeddings_index] has [embedding_dim] entries. *)
Definition vectors_of_dim (embeddings_index : dict (list R))
    (embedding_dim : nat) : Prop :=
  forall w v, dict_get embeddings_index w = Some v ->
              length v = embedding_dim.

(** ** Label counts at a threshold *)

(** [len(np.where(v > thr)[0])] *)
Definition count_above (thr : R) (v : list R) : nat :=
  length (filter (fun x => if Rlt_dec thr x then true else false) v).

Definition threshold : R := 0.5.

(** [[
avg_n_gt, avg_n_pred = 0, 0
for t in range(len(y_val)):
    avg_n_gt += len(np.where(y_val[t]>0.5)[0])
    avg_n_pred += len(np.where(predictions[t]>threshold)[0])
avg_n_gt /= len(y_val)
avg_n_pred /= len(y_val)
]]
    The value is the pair [(avg_n_gt, avg_n_pred)]. *)
Definition average_label_counts (y_val predictions : list (list R))
  : result (R * R) :=
  acc <- for_range (length y_val)
           (fun t acc =>
              yt <- getitem y_val t ;;
              pt <- getitem predictions t ;;
              Ok ((fst acc + count_above 0.5 yt)%nat,
                  (snd acc + count_above threshold pt)%nat))
           (0%nat, 0%nat) ;;
  avg_n_gt <- div (INR (fst acc)) (INR (length y_val)) ;;
  avg_n_pred <- div (INR (snd acc)) (INR (length y_val)) ;;
  Ok (avg_n_gt, avg_n_pred).

(** The dictionary [d] holds the counts of the tags of [l]. *)
Definition counts_agree (d : dict nat) (l : list tag) : Prop :=
  NoDup (map fst d) /\
  (forall t, In t (map fst d) <-> In t l) /\
  (forall t, dict_get d t
             = match count_occ String.string_dec l t with
               | O => None
               | S n => Some (S n)
               end).

(** ** Specification-side notions *)

(** Outcome predicate: [Q] on a returned value, [E] on a raised
    exception. *)
Definition post {A} (c : result A) (Q : A -> Prop) (E : exn -> Prop) : Prop :=
  match c with
  | Ok a => Q a
  | Raise e => E e
  end.

(** A numpy value that is a number. *)
Definition finite (a : np_float) : Prop := exists x, a = Fin x.

Definition finite_scores (s : scores) : Prop :=
  finite (precision_at_k s) /\ finite (recall_at_k s) /\
  finite (f1score_at_k s) /\ finite (ndcg_at_k s).

(** The exceptions other than a division with a zero denominator. *)
Definition not_zero_division (e : exn) : Prop := e <> ZeroDivisionError.

(** The sum of [f 0 .. f (k-1)]. *)
Fixpoint sum_upto (f : nat -> R) (k : nat) : R :=
  match k with
  | O => 0
  | S k' => sum_upto f k' + f k'
  end.

(** The sum of [f 0 .. f (k-1)] on numpy values, accumulated from 0. *)
Fixpoint np_sum_upto (f : nat -> np_float) (k : nat) : np_float :=
  match k with
  | O => Fin 0
  | S k' => np_add (np_sum_upto f k') (f k')
  end.

(** The closed form of the discounted cumulative gain: the sum over
    [i] from [0] to [k-1] of [vals[i][1] / log2(i + 2)]. *)
Definition dcg_sum (vals : list (R * R)) (k : nat) : R :=
  sum_upto (fun i => snd (nth i vals (0, 0)) / log2 (INR i + 2)) k.

(** A binary vector. *)
Definition binary (t : list R) : Prop := Forall (fun x => x = 0 \/ x = 1) t.

(** The number of positive labels of a binary vector. *)
Definition num_positive (t : list R) : nat := count_occ Req_dec_T t 1.

(** Every positive label has a strictly higher score than every negative
    label. *)
Definition perfectly_ranked (t p : list R) : Prop :=
  forall i i' a b,
    nth_error t i = Some 1 -> nth_error t i' = Some 0 ->
    nth_error p i = Some a -> nth_error p i' = Some b ->
    b < a.

(** Ground truth and predictions have the same shape. *)
Definition same_shape (truevals predvals : list (list R)) : Prop :=
  Forall2 (fun t p => length t = length p) truevals predvals.

(** A list in decreasing order of its keys. *)
Definition decreasing {A} (key : A -> R) (l : list A) : Prop :=
  StronglySorted (fun a b => key b <= key a) l.

(** The elements whose key is [v]. *)
Definition has_key {A} (key : A -> R) (v : R) (a : A) : bool :=
  if Req_dec_T (key a) v then true else false.

(** The labels among the [k] highest-scored ones of a sample that are
    true. *)
Definition true_in_top_k (t p : list R) (k : nat) : R :=
  np_sum (map snd (firstn k (sorted_rev fst (combine p t)))).

(** Per-sample values in closed form: precision, recall with the
    denominator taken from the vector [t0], the F1 term, and the ratio of
    the two discounted gains. *)
Definition sample_precision (k : nat) (t p : list R) : R :=
  true_in_top_k t p k / INR k.

Definition sample_recall (t0 : list R) (k : nat) (t p : list R) : R :=
  true_in_top_k t p k / np_sum t0.

Definition sample_f1 (t0 : list R) (k : nat) (t p : list R) : R :=
  let pr := sample_precision k t p in
  let rc := sample_recall t0 k t p in
  if Rlt_dec 0 (true_in_top_k t p k) then 2 * ((pr * rc) / (pr + rc)) else 0.

Definition sample_ndcg (k : nat) (t p : list R) : R :=
  dcg_sum (sorted_rev fst (combine p t)) k
  / (dcg_sum (sorted_rev snd (combine p t)) k + 0.00000001).

(** The sum over the first [n] samples, and the mean over all samples, of
    [f t p]. *)
Definition sum_over_samples (f : list R -> list R -> R)
    (truevals predvals : list (list R)) (n : nat) : R :=
  sum_upto (fun j => f (nth j truevals []) (nth j predvals [])) n.

Definition mean_over_samples (f : list R -> list R -> R)
    (truevals predvals : list (list R)) : R :=
  sum_over_samples f truevals predvals (length truevals)
  / INR (length truevals).

(** Recall@k as the mean over the samples [j] of the true labels among the
    top [k] divided by the number of true labels of sample [j]. *)
Definition mean_recall (truevals predvals : list (list R)) (k : nat) : R :=
  mean_over_samples (fun t p => true_in_top_k t p k / np_sum t)
                    truevals predvals.

(** Inputs on which every step of [scores_at_k] is defined: at least one
    sample, predictions of the same shape as the ground truth, [k] between
    1 and the number of labels, non-negative truth values and a first
    sample with a non-zero sum. *)
Record well_formed (truevals predvals : list (list R)) (k : nat) : Prop := {
  wf_nonempty : truevals <> [];
  wf_shape : same_shape truevals predvals;
  wf_k : (1 <= k)%nat;
  wf_labels : Forall (fun t : list R =>
                        ((k <= length t)%nat /\
                         Forall (fun x => 0 <= x) t)%type) truevals;
  wf_first : np_sum (hd [] truevals) <> 0
}.

(** Per-sample values as numpy computes them: recall and the F1 term can
    be non-finite when [np.sum(t0)] or [pr + rc] is zero, the DCG ratio when
    the ideal DCG plus epsilon is zero. *)
Definition np_sample_recall (t0 : list R) (k : nat) (t p : list R)
  : np_float :=
  np_div (true_in_top_k t p k) (np_sum t0).

Definition np_sample_f1 (t0 : list R) (k : nat) (t p : list R) : np_float :=
  let pr := sample_precision k t p in
  let rc := np_sample_recall t0 k t p in
  if Rlt_dec 0 (true_in_top_k t p k)
  then np_mul 2 (np_div (np_mul pr rc) (np_add pr rc))
  else 0.

Definition np_sample_ndcg (k : nat) (t p : list R) : np_float :=
  np_div (dcg_sum (sorted_rev fst (combine p t)) k)
         (dcg_sum (sorted_rev snd (combine p t)) k + 0.00000001).

Definition np_sum_over_samples (f : list R -> list R -> np_float)
    (truevals predvals : list (list R)) (n : nat) : np_float :=
  np_sum_upto (fun j => f (nth j truevals []) (nth j predvals [])) n.

(** Every sample has a prediction row and at least [k] (score, truth)
    pairs. *)
Definition indexable (truevals predvals : list (list R)) (k : nat) : Prop :=
  forall j, (j < length truevals)%nat ->
    (j < length predvals)%nat /\
    (k <= length (combine (nth j predvals []) (nth j truevals [])))%nat.

(** * Proofs *)

(** ** Reasoning rules for the run-time model *)

Section Rules.
Context {A B : Type}.

Lemma post_bind (c : result A) (f : A -> result B) Q E :
  post c (fun a => post (f a) Q E) E -> post (bind c f) Q E.
Proof. destruct c; simpl; auto. Qed.

Lemma post_mono (c : result A) (Q Q' : A -> Prop) (E E' : exn -> Prop) :
  (forall a, Q a -> Q' a) -> (forall e, E e -> E' e) ->
  post c Q E -> post c Q' E'.
Proof. destruct c; simpl; auto. Qed.

Lemma post_ok (c : result A) Q :
  post c Q (fun _ => False) -> exists a, c = Ok a /\ Q a.
Proof. destruct c; simpl; [eauto | tauto]. Qed.

Lemma post_getitem (l : list A) i Q (E : exn -> Prop) :
  (forall x, nth_error l i = Some x -> Q x) ->
  ((length l <= i)%nat -> E IndexError) ->
  post (getitem l i) Q E.
Proof.
  intros HQ HE. unfold getitem.
  destruct (nth_error l i) eqn:Hn; simpl; auto.
  apply HE, nth_error_None, Hn.
Qed.

Lemma for_each_app (xs ys : list A) (body : A -> B -> result B) s :
  for_each (xs ++ ys) body s = bind (for_each xs body s) (for_each ys body).
Proof.
  revert s; induction xs as [|x xs IH]; intros s; simpl.
  - reflexivity.
  - destruct (body x s); simpl; auto.
Qed.

Lemma for_each_ext (xs : list A) (f g : A -> B -> result B) s :
  (forall x s', In x xs -> f x s' = g x s') ->
  for_each xs f s = for_each xs g s.
Proof.
  revert s; induction xs as [|x xs IH]; intros s H; simpl.
  - reflexivity.
  - rewrite (H x s) by (left; reflexivity).
    destruct (g x s); simpl; auto.
    apply IH. intros; apply H; right; assumption.
Qed.
End Rules.

Lemma div_ok x y : y <> 0 -> div x y = Ok (x / y).
Proof. intros H. unfold div. destruct (Req_dec_T y 0); tauto. Qed.

Lemma div_zero x : div x 0 = Raise ZeroDivisionError.
Proof. unfold div. destruct (Req_dec_T 0 0); tauto. Qed.

Lemma post_div x y (Q : R -> Prop) (E : exn -> Prop) :
  (y <> 0 -> Q (x / y)) -> (y = 0 -> E ZeroDivisionError) ->
  post (div x y) Q E.
Proof. intros HQ HE. unfold div. destruct (Req_dec_T y 0); simpl; auto. Qed.

Lemma for_range_S {S} n (body : nat -> S -> result S) s :
  for_range (Datatypes.S n) body s = bind (for_range n body s) (body n).
Proof.
  unfold for_range. rewrite seq_S, for_each_app. simpl.
  destruct (for_each (seq 0 n) body s); simpl; auto.
  destruct (body n a); reflexivity.
Qed.

(** The loop rule: an invariant indexed by the number of iterations
    done. *)
Lemma post_for_range {S} n (body : nat -> S -> result S) s
      (Inv : nat -> S -> Prop) (E : exn -> Prop) :
  Inv O s ->
  (forall i s', (i < n)%nat -> Inv i s' -> post (body i s') (Inv (Datatypes.S i)) E) ->
  post (for_range n body s) (Inv n) E.
Proof.
  intros H0 Hstep. induction n as [|n IH].
  - exact H0.
  - rewrite for_range_S. apply post_bind.
    eapply post_mono; [| | apply IH].
    + intros a Ha. apply Hstep; [lia | exact Ha].
    + auto.
    + intros; apply Hstep; [lia | assumption].
Qed.

Lemma for_range_ext {S} n (f g : nat -> S -> result S) s :
  (forall i s', (i < n)%nat -> f i s' = g i s') ->
  for_range n f s = for_range n g s.
Proof.
  intros H. apply for_each_ext. intros x s' Hin.
  apply in_seq in Hin. apply H; lia.
Qed.

(** ** The base-2 logarithm *)

Lemma ln_2_pos : 0 < ln 2.
Proof. rewrite <- ln_1. apply ln_increasing; lra. Qed.

Lemma log2_2 : log2 2 = 1.
Proof. unfold log2. field. pose proof ln_2_pos; lra. Qed.

Lemma log2_ge_1 x : 2 <= x -> 1 <= log2 x.
Proof.
  intros Hx. unfold log2. pose proof ln_2_pos as H2.
  apply Rmult_le_reg_r with (ln 2); [assumption|].
  replace (ln x / ln 2 * ln 2) with (ln x) by (field; lra).
  rewrite Rmult_1_l. destruct Hx as [Hx | <-]; [|lra].
  left. apply ln_increasing; lra.
Qed.

Lemma log2_discount_pos i : 0 < log2 (INR (i + 2)).
Proof.
  pose proof (log2_ge_1 (INR (i + 2))) as H.
  rewrite plus_INR in *. simpl INR in *.
  pose proof (pos_INR i). lra.
Qed.

Lemma INR_plus_2 i : INR (i + 2) = INR i + 2.
Proof. rewrite plus_INR. simpl. lra. Qed.

(** ** [dcg_at_k] *)

Lemma nth_error_nth_default {A} (l : list A) i d :
  (i < length l)%nat -> nth_error l i = Some (nth i l d).
Proof. intros H. apply nth_error_nth'. exact H. Qed.

Lemma getitem_ok {A} (l : list A) i d :
  (i < length l)%nat -> getitem l i = Ok (nth i l d).
Proof.
  intros H. unfold getitem. rewrite (nth_error_nth_default l i d H).
  reflexivity.
Qed.

Lemma getitem_raise {A} (l : list A) i :
  (length l <= i)%nat -> getitem l i = Raise IndexError.
Proof.
  intros H. unfold getitem.
  apply nth_error_None in H. rewrite H. reflexivity.
Qed.

Lemma dcg_at_k_closed_form vals k :
  (k <= length vals)%nat -> dcg_at_k vals k = Ok (dcg_sum vals k).
Proof.
  unfold dcg_at_k, dcg_sum. induction k as [|k IH]; intros Hk.
  - reflexivity.
  - rewrite for_range_S, IH by lia. simpl bind.
    rewrite (getitem_ok vals k (0, 0)) by lia. simpl bind.
    rewrite div_ok by (pose proof (log2_discount_pos k); lra).
    simpl. rewrite INR_plus_2. reflexivity.
Qed.

Lemma dcg_sum_step vals k :
  dcg_sum vals (S k)
  = dcg_sum vals k + snd (nth k vals (0, 0)) / log2 (INR k + 2).
Proof. reflexivity. Qed.

Lemma nth_snd_nonneg (vals : list (R * R)) i :
  Forall (fun v => 0 <= snd v) vals -> 0 <= snd (nth i vals (0, 0)).
Proof.
  intros H. destruct (Nat.lt_ge_cases i (length vals)) as [Hi | Hi].
  - rewrite Forall_forall in H. apply H, nth_In, Hi.
  - rewrite nth_overflow by exact Hi. simpl. lra.
Qed.

Lemma dcg_term_nonneg vals i :
  Forall (fun v => 0 <= snd v) vals ->
  0 <= snd (nth i vals (0, 0)) / log2 (INR i + 2).
Proof.
  intros H. pose proof (nth_snd_nonneg vals i H) as Hn.
  pose proof (log2_discount_pos i) as Hl. rewrite INR_plus_2 in Hl.
  apply Rmult_le_pos; [exact Hn|].
  left. apply Rinv_0_lt_compat. exact Hl.
Qed.

Lemma dcg_sum_nonneg vals k :
  Forall (fun v => 0 <= snd v) vals -> 0 <= dcg_sum vals k.
Proof.
  intros H. induction k as [|k IH].
  - unfold dcg_sum; simpl; lra.
  - rewrite dcg_sum_step. pose proof (dcg_term_nonneg vals k H). lra.
Qed.

Lemma dcg_sum_mono vals k k' :
  Forall (fun v => 0 <= snd v) vals -> (k <= k')%nat ->
  dcg_sum vals k <= dcg_sum vals k'.
Proof.
  intros H Hle. induction Hle as [|m Hle IH].
  - lra.
  - rewrite dcg_sum_step. pose proof (dcg_term_nonneg vals m H). lra.
Qed.

(** C9: on pairs with non-negative truth components [dcg_at_k vals 0] is 0
    and [dcg_at_k vals k <= dcg_at_k vals (k + 1)] whenever [k + 1] is at
    most the length of [vals]; both calls return. *)
Theorem dcg_at_k_zero_and_monotone (vals : list (R * R)) :
  Forall (fun v => 0 <= snd v) vals ->
  dcg_at_k vals 0 = Ok 0 /\
  forall k, (k + 1 <= length vals)%nat ->
    exists a b, dcg_at_k vals k = Ok a /\ dcg_at_k vals (k + 1) = Ok b /\
                a <= b.
Proof.
  intros Hpos. split; [reflexivity|].
  intros k Hk. exists (dcg_sum vals k), (dcg_sum vals (k + 1)).
  repeat split.
  - apply dcg_at_k_closed_form. lia.
  - apply dcg_at_k_closed_form. exact Hk.
  - apply dcg_sum_mono; [exact Hpos | lia].
Qed.

Lemma dcg_at_k_zero_and_monotone_witness :
  dcg_at_k [(3, 1); (2, 0)] 0 = Ok 0 /\
  forall k, (k + 1 <= length [(3, 1); (2, 0)])%nat ->
    exists a b, dcg_at_k [(3, 1); (2, 0)] k = Ok a /\
                dcg_at_k [(3, 1); (2, 0)] (k + 1) = Ok b /\ a <= b.
Proof.
  apply (dcg_at_k_zero_and_monotone [(3, 1); (2, 0)]).
  repeat constructor; simpl; lra.
Defined.

(** ** [indices_to_labels] *)

Lemma set_nth_spec {A} (l : list A) i v :
  (i < length l)%nat ->
  exists l', set_nth l i v = Some l' /\ length l' = length l /\
             nth_error l' i = Some v /\
             forall j, j <> i -> nth_error l' j = nth_error l j.
Proof.
  revert i; induction l as [|x l IH]; intros i Hi; simpl in Hi; [lia|].
  destruct i as [|i]; simpl.
  - exists (v :: l). repeat split. intros [|j] Hj; [congruence | reflexivity].
  - destruct (IH i) as (l' & -> & Hlen & Hget & Hother); [lia|].
    exists (x :: l'). simpl. repeat split; auto.
    intros [|j] Hj; simpl; [reflexivity | apply Hother; congruence].
Qed.

Lemma setitem_in_range {A} (l : list A) i v :
  (i < length l)%nat ->
  exists l', setitem l i v = Ok l' /\ length l' = length l /\
             nth_error l' i = Some v /\
             forall j, j <> i -> nth_error l' j = nth_error l j.
Proof.
  intros Hi. destruct (set_nth_spec l i v Hi) as (l' & Hs & H).
  exists l'. unfold setitem. rewrite Hs. auto.
Qed.

Lemma nth_error_np_zeros n i v :
  nth_error (np_zeros n) i = Some v -> v = 0.
Proof.
  intros H. apply nth_error_In in H. unfold np_zeros in H.
  apply repeat_spec in H. exact H.
Qed.

Lemma label_loop (x : list nat) : forall l0 : list R,
  length l0 = NLABELS ->
  exists l,
    for_each x
      (fun i labels => if (i <? NLABELS)%nat then setitem labels i 1
                       else Ok labels) l0 = Ok l /\
    length l = NLABELS /\
    forall i v, nth_error l i = Some v ->
      (In i x /\ v = 1) \/ (~ In i x /\ nth_error l0 i = Some v).
Proof.
  induction x as [|a x IH]; intros l0 Hlen; simpl.
  - exists l0. repeat split; auto.
  - destruct (a <? NLABELS)%nat eqn:Ha.
    + apply Nat.ltb_lt in Ha.
      destruct (setitem_in_range l0 a 1) as (l1 & -> & Hl1 & Hget & Hother);
        [lia|]. simpl.
      destruct (IH l1) as (l & Hrun & Hl & Hspec); [lia|].
      exists l. repeat split; auto.
      intros i v Hi. destruct (Hspec i v Hi) as [[Hin Hv] | [Hnin Hv]].
      * left; auto.
      * destruct (Nat.eq_dec i a) as [-> | Hne].
        -- left. split; [left; reflexivity | congruence].
        -- right. split; [intros [Heq | Hin]; [congruence | tauto]|].
           rewrite <- Hother by exact Hne. exact Hv.
    + apply Nat.ltb_ge in Ha. simpl.
      destruct (IH l0 Hlen) as (l & Hrun & Hl & Hspec).
      exists l. repeat split; auto.
      intros i v Hi. destruct (Hspec i v Hi) as [[Hin Hv] | [Hnin Hv]].
      * left; auto.
      * right. split; [|exact Hv].
        intros [Heq | Hin]; [|tauto]. subst i.
        assert (Hsome : nth_error l0 a <> None) by congruence.
        apply nth_error_Some in Hsome. lia.
Qed.

(** C8: for every list of indices [indices_to_labels] returns, without an
    error, a vector of exactly [NLABELS] = 100 entries, each 0 or 1, whose
    entry [i] is 1 exactly when [i] occurs in the input and [i < NLABELS];
    indices at or above [NLABELS] are ignored. *)
Theorem indices_to_labels_spec (x : list nat) :
  NLABELS = 100%nat /\
  exists labels,
    indices_to_labels x = Ok labels /\
    length labels = NLABELS /\
    Forall (fun v => v = 0 \/ v = 1) labels /\
    (forall i, nth_error labels i = Some 1 <-> In i x /\ (i < NLABELS)%nat) /\
    (forall i, nth_error labels i = Some 0 <-> ~ In i x /\ (i < NLABELS)%nat).
Proof.
  split; [reflexivity|].
  destruct (label_loop x (np_zeros NLABELS)) as (l & Hrun & Hlen & Hspec).
  { apply repeat_length. }
  assert (Hval : forall i v, nth_error l i = Some v ->
            (In i x /\ v = 1) \/ (~ In i x /\ v = 0)).
  { intros i v Hi. destruct (Hspec i v Hi) as [H | [Hn Hz]]; [left; exact H|].
    right. split; [exact Hn | eapply nth_error_np_zeros; exact Hz]. }
  assert (Hlt : forall i v, nth_error l i = Some v -> (i < NLABELS)%nat).
  { intros i v Hi. rewrite <- Hlen. apply nth_error_Some. congruence. }
  assert (Hdef : forall i, (i < NLABELS)%nat -> exists v, nth_error l i = Some v).
  { intros i Hi. destruct (nth_error l i) eqn:Hn; [eauto|].
    apply nth_error_None in Hn. lia. }
  exists l. unfold indices_to_labels. repeat split; auto.
  - apply Forall_forall. intros v Hin.
    apply In_nth_error in Hin. destruct Hin as [i Hi].
    destruct (Hval i v Hi) as [[_ ->] | [_ ->]]; auto.
  - destruct (Hval i 1 H) as [[Hin _] | [_ Hz]]; [exact Hin | lra].
  - eapply Hlt; eassumption.
  - intros [Hin Hi]. destruct (Hdef i Hi) as [v Hv].
    destruct (Hval i v Hv) as [[_ ->] | [Hn _]]; [exact Hv | tauto].
  - destruct (Hval i 0 H) as [[_ Hz] | [Hn _]]; [lra | exact Hn].
  - eapply Hlt; eassumption.
  - intros [Hn Hi]. destruct (Hdef i Hi) as [v Hv].
    destruct (Hval i v Hv) as [[Hin _] | [_ ->]]; [tauto | exact Hv].
Qed.

(** ** The training / validation split *)

Lemma num_validation_samples_div n :
  num_validation_samples n = Z.of_nat (n / 5).
Proof.
  unfold num_validation_samples, int, VALIDATION_SPLIT.
  change (Qnum (0.2 * inject_Z (Z.of_nat n))) with (2 * Z.of_nat n)%Z.
  change (Z.pos (Qden (0.2 * inject_Z (Z.of_nat n)))) with 10%Z.
  rewrite Z.quot_div_nonneg by lia.
  rewrite Nat2Z.inj_div. change (Z.of_nat 5) with 5%Z.
  rewrite <- (Z.div_mul_cancel_l (Z.of_nat n) 5 2) by lia. reflexivity.
Qed.

Lemma floor_validation_split n :
  Qfloor (VALIDATION_SPLIT * inject_Z (Z.of_nat n)) = Z.of_nat (n / 5).
Proof.
  unfold VALIDATION_SPLIT, Qfloor.
  change (Qnum (0.2 * inject_Z (Z.of_nat n))) with (2 * Z.of_nat n)%Z.
  change (Z.pos (Qden (0.2 * inject_Z (Z.of_nat n)))) with 10%Z.
  rewrite Nat2Z.inj_div. change (Z.of_nat 5) with 5%Z.
  rewrite <- (Z.div_mul_cancel_l (Z.of_nat n) 5 2) by lia. reflexivity.
Qed.

Lemma split_index_large n :
  (5 <= n)%nat ->
  slice_index n (- num_validation_samples n) = (n - n / 5)%nat.
Proof.
  intros Hn. rewrite num_validation_samples_div. unfold slice_index.
  assert (1 <= n / 5)%nat by (apply Nat.div_le_lower_bound; lia).
  assert (n / 5 <= n)%nat by (apply Nat.Div0.div_le_upper_bound; lia).
  destruct (Z.ltb_spec (- Z.of_nat (n / 5)) 0); lia.
Qed.

Lemma split_index_small n :
  (n < 5)%nat -> slice_index n (- num_validation_samples n) = 0%nat.
Proof.
  intros Hn. rewrite num_validation_samples_div.
  rewrite Nat.div_small by exact Hn. reflexivity.
Qed.

(** C10: with [VALIDATION_SPLIT = 0.2], a data set of [n >= 5] rows is cut
    into [n - floor(0.2 n)] training rows followed by [floor(0.2 n)]
    validation rows; with [n < 5] the number of validation samples is 0,
    the training set is empty and the validation set is the whole data. *)
Theorem train_validation_split {A} (data : list A) :
  let n := length data in
  let m := Qfloor (VALIDATION_SPLIT * inject_Z (Z.of_nat n)) in
  ((5 <= n)%nat ->
     Z.of_nat (length (x_train data)) = (Z.of_nat n - m)%Z /\
     Z.of_nat (length (x_val data)) = m /\
     x_train data ++ x_val data = data) /\
  ((n < 5)%nat ->
     num_validation_samples n = 0%Z /\
     x_train data = [] /\ x_val data = data).
Proof.
  intros n m. subst m. rewrite floor_validation_split. split; intros Hn.
  - unfold x_train, x_val, slice_to, slice_from. fold n.
    rewrite (split_index_large n Hn).
    assert (n / 5 <= n)%nat by (apply Nat.Div0.div_le_upper_bound; lia).
    rewrite length_firstn, length_skipn. fold n.
    repeat split; [lia | lia | apply firstn_skipn].
  - unfold x_train, x_val, slice_to, slice_from. fold n.
    rewrite (split_index_small n Hn). split; [|split; reflexivity].
    rewrite num_validation_samples_div, Nat.div_small by exact Hn.
    reflexivity.
Qed.

Lemma train_validation_split_witness :
  (x_train [1; 2; 3; 4; 5; 6; 7]%nat = [1; 2; 3; 4; 5; 6]%nat /\
   x_val [1; 2; 3; 4; 5; 6; 7]%nat = [7]%nat /\
   x_train [1; 2; 3; 4; 5; 6; 7]%nat ++ x_val [1; 2; 3; 4; 5; 6; 7]%nat
   = [1; 2; 3; 4; 5; 6; 7]%nat) /\
  (x_train [1; 2; 3]%nat = [] /\ x_val [1; 2; 3]%nat = [1; 2; 3]%nat).
Proof.
  split.
  - split; [reflexivity | split; [reflexivity|]].
    apply (proj1 (train_validation_split [1; 2; 3; 4; 5; 6; 7]%nat)).
    simpl; lia.
  - apply (proj2 (train_validation_split [1; 2; 3]%nat)).
    simpl; lia.
Defined.

(** ** Error handling *)

Lemma for_range_raise {S} n (body : nat -> S -> result S) s j acc e :
  (j < n)%nat ->
  for_range j body s = Ok acc -> body j acc = Raise e ->
  for_range n body s = Raise e.
Proof.
  intros Hj Hpre Hbody. unfold for_range in *.
  replace n with (j + (n - j))%nat by lia.
  rewrite seq_app, for_each_app, Hpre. simpl.
  destruct (n - j)%nat as [|r] eqn:Hr; [lia|].
  simpl. rewrite Hbody. reflexivity.
Qed.

Lemma scores_at_k_propagates truevals predvals k j acc e :
  (j < length truevals)%nat ->
  for_range j (sample_step truevals predvals k) (mkScores 0 0 0 0) = Ok acc ->
  sample_step truevals predvals k j acc = Raise e ->
  scores_at_k truevals predvals k = Raise e.
Proof.
  intros Hj Hpre Hstep. unfold scores_at_k.
  rewrite (for_range_raise _ _ _ j acc e Hj Hpre Hstep). reflexivity.
Qed.

(** C7, the claim as stated fails: when [import tensorboardX] raises
    [ImportError], the set-up cell catches it and binds [log = None]
    instead of letting the error reach the caller. *)
Lemma import_error_is_caught :
  let env := mkTbEnv unit (Raise ImportError) (Ok tt) (Ok tt) in
  tensorboard_try env = Raise ImportError /\
  tensorboard_cell env = Ok None /\
  tensorboard_cell env <> Raise ImportError.
Proof. simpl. repeat split. discriminate. Qed.

(** C7 as amended: the only handler is the one of the TensorBoard set-up
    cell.  It replaces an [ImportError] by [log = None]; an error of any
    other class raised in that cell reaches the caller, and so does every
    error raised by a step of [scores_at_k]. *)
Theorem only_import_error_is_handled {W} (env : tb_env W) :
  (tensorboard_try env = Raise ImportError ->
     tensorboard_cell env = Ok None) /\
  (forall e, e <> ImportError -> tensorboard_try env = Raise e ->
     tensorboard_cell env = Raise e) /\
  (forall log, tensorboard_try env = Ok log ->
     tensorboard_cell env = Ok log) /\
  (forall truevals predvals k j acc e,
     (j < length truevals)%nat ->
     for_range j (sample_step truevals predvals k) (mkScores 0 0 0 0)
       = Ok acc ->
     sample_step truevals predvals k j acc = Raise e ->
     scores_at_k truevals predvals k = Raise e).
Proof.
  unfold tensorboard_cell. repeat split.
  - intros ->. reflexivity.
  - intros e Hne ->. destruct e; simpl; congruence.
  - intros log ->. reflexivity.
  - apply scores_at_k_propagates.
Qed.

Lemma only_import_error_is_handled_witness :
  tensorboard_cell (mkTbEnv unit (Raise ImportError) (Ok tt) (Ok tt))
    = Ok None /\
  tensorboard_cell (mkTbEnv unit (Ok tt) (Raise OSError) (Ok tt))
    = Raise OSError /\
  tensorboard_cell (mkTbEnv unit (Ok tt) (Ok tt) (Ok tt)) = Ok (Some tt) /\
  scores_at_k [[1]] [] 1 = Raise IndexError.
Proof.
  pose proof (only_import_error_is_handled
                (mkTbEnv unit (Raise ImportError) (Ok tt) (Ok tt))) as H1.
  pose proof (only_import_error_is_handled
                (mkTbEnv unit (Ok tt) (Raise OSError) (Ok tt))) as H2.
  pose proof (only_import_error_is_handled
                (mkTbEnv unit (Ok tt) (Ok tt) (Ok tt))) as H3.
  split; [|split; [|split]].
  - apply (proj1 H1). reflexivity.
  - apply (proj1 (proj2 H2)); [discriminate | reflexivity].
  - apply (proj1 (proj2 (proj2 H3))). reflexivity.
  - apply (proj2 (proj2 (proj2 H3)) [[1]] [] 1%nat 0%nat (mkScores 0 0 0 0));
      [simpl; lia | reflexivity | reflexivity].
Defined.

(** ** [sorted(..., reverse=True, key=...)] *)

Section SortedRev.
Context {A : Type} (key : A -> R).

Lemma insert_rev_perm x l : Permutation (insert_rev key x l) (x :: l).
Proof.
  induction l as [|y l IH]; simpl.
  - apply Permutation_refl.
  - destruct (Rlt_dec (key x) (key y)).
    + rewrite IH. apply perm_swap.
    + apply Permutation_refl.
Qed.

Lemma sorted_rev_perm l : Permutation (sorted_rev key l) l.
Proof.
  induction l as [|x l IH]; simpl.
  - apply perm_nil.
  - rewrite insert_rev_perm. apply perm_skip, IH.
Qed.

Lemma sorted_rev_length l : length (sorted_rev key l) = length l.
Proof. apply Permutation_length, sorted_rev_perm. Qed.

Lemma sorted_rev_In x l : In x (sorted_rev key l) <-> In x l.
Proof.
  split; apply Permutation_in;
    [|apply Permutation_sym]; apply sorted_rev_perm.
Qed.

Lemma insert_rev_decreasing x l :
  decreasing key l -> decreasing key (insert_rev key x l).
Proof.
  unfold decreasing. induction l as [|y l IH]; simpl; intros Hs.
  - constructor; constructor.
  - inversion Hs as [|? ? Hl Hy]; subst.
    destruct (Rlt_dec (key x) (key y)) as [Hlt | Hge].
    + constructor; [apply IH, Hl|].
      rewrite Forall_forall. intros b Hb.
      eapply Permutation_in in Hb; [|apply insert_rev_perm].
      destruct Hb as [<- | Hb]; [lra|].
      rewrite Forall_forall in Hy. apply Hy, Hb.
    + constructor; [exact Hs|].
      constructor; [lra|].
      rewrite Forall_forall in *. intros b Hb.
      specialize (Hy b Hb). lra.
Qed.

Lemma sorted_rev_decreasing l : decreasing key (sorted_rev key l).
Proof.
  induction l as [|x l IH]; simpl.
  - constructor.
  - apply insert_rev_decreasing, IH.
Qed.

(** Elements with the same key keep the order they have in the input. *)
Lemma insert_rev_stable v x l :
  filter (has_key key v) (insert_rev key x l)
  = filter (has_key key v) (x :: l).
Proof.
  induction l as [|y l IH]; [reflexivity|].
  simpl insert_rev. destruct (Rlt_dec (key x) (key y)) as [Hlt|]; [|reflexivity].
  simpl in *. rewrite IH. unfold has_key.
  destruct (Req_dec_T (key x) v), (Req_dec_T (key y) v); try reflexivity.
  lra.
Qed.

Lemma sorted_rev_stable v l :
  filter (has_key key v) (sorted_rev key l) = filter (has_key key v) l.
Proof.
  induction l as [|x l IH]; [reflexivity|].
  simpl sorted_rev. rewrite insert_rev_stable. simpl. rewrite IH.
  reflexivity.
Qed.
End SortedRev.

(** Sorting commutes with a map that preserves the comparison of keys. *)
Lemma sorted_rev_map {A B} (key : A -> R) (key' : B -> R) (g : A -> B) l :
  (forall a b, key' (g a) < key' (g b) <-> key a < key b) ->
  sorted_rev key' (map g l) = map g (sorted_rev key l).
Proof.
  intros Hg. induction l as [|x l IH]; [reflexivity|].
  simpl. rewrite IH. generalize (sorted_rev key l) as s.
  induction s as [|y s IHs]; [reflexivity|].
  simpl. destruct (Rlt_dec (key' (g x)) (key' (g y))) as [H | H],
              (Rlt_dec (key x) (key y)) as [H' | H'].
  - simpl. rewrite IHs. reflexivity.
  - apply Hg in H. contradiction.
  - apply Hg in H'. contradiction.
  - reflexivity.
Qed.

(** ** Sums *)

Lemma fold_left_Rplus_shift l a :
  fold_left Rplus l a = a + fold_left Rplus l 0.
Proof.
  revert a; induction l as [|x l IH]; intros a; simpl.
  - lra.
  - rewrite (IH (a + x)), (IH (0 + x)). lra.
Qed.

Lemma np_sum_cons x l : np_sum (x :: l) = x + np_sum l.
Proof.
  unfold np_sum. simpl. rewrite fold_left_Rplus_shift. lra.
Qed.

Lemma np_sum_app l l' : np_sum (l ++ l') = np_sum l + np_sum l'.
Proof.
  induction l as [|x l IH]; simpl.
  - unfold np_sum at 2. simpl. lra.
  - rewrite !np_sum_cons, IH. lra.
Qed.

Lemma np_sum_perm l l' : Permutation l l' -> np_sum l = np_sum l'.
Proof.
  induction 1; rewrite ?np_sum_cons in *; lra.
Qed.

Lemma np_sum_repeat x n : np_sum (repeat x n) = INR n * x.
Proof.
  induction n as [|n IH].
  - simpl. unfold np_sum. simpl. lra.
  - rewrite S_INR. simpl repeat. rewrite np_sum_cons, IH. lra.
Qed.

Lemma np_sum_nonneg l : Forall (fun x => 0 <= x) l -> 0 <= np_sum l.
Proof.
  induction 1 as [|x l Hx Hl IH].
  - unfold np_sum; simpl; lra.
  - rewrite np_sum_cons. lra.
Qed.

(** ** The metrics read only the truth components of the sorted pairs *)

Lemma getitem_snd {B} (l l' : list (R * R)) i (F : R -> result B) :
  map snd l = map snd l' ->
  bind (getitem l i) (fun v => F (snd v))
  = bind (getitem l' i) (fun v => F (snd v)).
Proof.
  intros Heq. unfold getitem.
  assert (H : nth_error (map snd l) i = nth_error (map snd l') i)
    by (rewrite Heq; reflexivity).
  rewrite !nth_error_map in H.
  destruct (nth_error l i), (nth_error l' i); simpl in *;
    congruence.
Qed.

Lemma truesum_at_k_snd l l' k :
  map snd l = map snd l' -> truesum_at_k l k = truesum_at_k l' k.
Proof.
  intros Heq. unfold truesum_at_k. apply for_range_ext. intros i s _.
  apply (getitem_snd l l' i (fun t => Ok (s + t)) Heq).
Qed.

Lemma dcg_at_k_snd l l' k :
  map snd l = map snd l' -> dcg_at_k l k = dcg_at_k l' k.
Proof.
  intros Heq. unfold dcg_at_k. apply for_range_ext. intros i s _.
  apply (getitem_snd l l' i
           (fun t => d <- div t (log2 (INR (i + 2))) ;; Ok (s + d)) Heq).
Qed.

Lemma firstn_succ {A} (l : list A) k d :
  (k < length l)%nat -> firstn (S k) l = firstn k l ++ [nth k l d].
Proof.
  revert k; induction l as [|x l IH]; intros k Hk; simpl in Hk; [lia|].
  destruct k as [|k]; [reflexivity|].
  simpl. f_equal. apply IH. lia.
Qed.

Lemma truesum_at_k_closed_form l k :
  (k <= length l)%nat ->
  truesum_at_k l k = Ok (np_sum (map snd (firstn k l))).
Proof.
  unfold truesum_at_k. induction k as [|k IH]; intros Hk.
  - reflexivity.
  - rewrite for_range_S, IH by lia. simpl bind.
    rewrite (getitem_ok l k (0, 0)) by lia. simpl bind.
    rewrite (firstn_succ l k (0, 0)) by lia.
    rewrite map_app, np_sum_app. simpl map. rewrite np_sum_cons.
    unfold np_sum at 3. simpl. f_equal. lra.
Qed.

(** ** Invariance under order-preserving rescaling of the scores *)

Lemma getitem_map {A B} (g : A -> B) (l : list A) i :
  getitem (map g l) i = x <- getitem l i ;; Ok (g x).
Proof.
  unfold getitem. rewrite nth_error_map.
  destruct (nth_error l i); reflexivity.
Qed.

Lemma combine_map_l {A B C} (f : A -> C) (l : list A) (l' : list B) :
  combine (map f l) l' = map (fun v => (f (fst v), snd v)) (combine l l').
Proof.
  revert l'; induction l as [|x l IH]; intros [|y l']; simpl; try reflexivity.
  f_equal. apply IH.
Qed.

Lemma map_snd_rescale {C} (f : R -> C) (l : list (R * R)) :
  map snd (map (fun v => (f (fst v), snd v)) l) = map snd l.
Proof. rewrite map_map. apply map_ext. reflexivity. Qed.

Lemma sample_step_rescale (f : R -> R) truevals predvals k j acc :
  (forall a b, a < b -> f a < f b) ->
  sample_step truevals (map (map f) predvals) k j acc
  = sample_step truevals predvals k j acc.
Proof.
  intros Hf.
  assert (Hiff : forall a b, f a < f b <-> a < b).
  { intros a b. split; [|apply Hf]. intros Hlt.
    destruct (Rlt_le_dec a b) as [|[Hba | ->]]; [assumption | | lra].
    apply Hf in Hba. lra. }
  unfold sample_step. rewrite getitem_map.
  destruct (getitem predvals j) as [pj|]; [|reflexivity]. simpl.
  destruct (getitem truevals j) as [tj|]; [|reflexivity]. simpl.
  rewrite combine_map_l.
  rewrite (sorted_rev_map fst fst) by (intros; apply Hiff).
  rewrite (sorted_rev_map snd snd) by (intros; reflexivity).
  rewrite (truesum_at_k_snd _ _ k (map_snd_rescale f _)).
  rewrite (dcg_at_k_snd _ _ k (map_snd_rescale f (sorted_rev fst _))).
  rewrite (dcg_at_k_snd _ _ k (map_snd_rescale f (sorted_rev snd _))).
  reflexivity.
Qed.

(** C4: applying a strictly increasing function to every prediction score
    leaves the outcome of [scores_at_k] (precision@k, recall@k, F1@k and
    NDCG@k, or the error raised) unchanged. *)
Theorem scores_at_k_order_invariant (f : R -> R) truevals predvals k :
  (forall a b, a < b -> f a < f b) ->
  scores_at_k truevals (map (map f) predvals) k
  = scores_at_k truevals predvals k.
Proof.
  intros Hf. unfold scores_at_k.
  rewrite (for_range_ext _ (sample_step truevals (map (map f) predvals) k)
             (sample_step truevals predvals k)).
  - reflexivity.
  - intros i s _. apply sample_step_rescale, Hf.
Qed.

Lemma scores_at_k_order_invariant_witness :
  scores_at_k [[1; 0]; [0; 1]]
    (map (map (fun x => 2 * x + 1)) [[0.9; 0.2]; [0.4; 0.3]]) 1
  = scores_at_k [[1; 0]; [0; 1]] [[0.9; 0.2]; [0.4; 0.3]] 1.
Proof.
  apply (scores_at_k_order_invariant (fun x => 2 * x + 1)).
  intros a b H. lra.
Defined.

Lemma for_range_raise_at {S} n (body : nat -> S -> result S) s j e :
  (j < n)%nat -> (forall s', body j s' = Raise e) ->
  exists e', for_range n body s = Raise e'.
Proof.
  intros Hj Hbody.
  destruct (for_range j body s) as [acc | e'] eqn:Hpre.
  - exists e. eapply for_range_raise; eauto.
  - exists e'. unfold for_range in *.
    replace n with (j + (n - j))%nat by lia.
    rewrite seq_app, for_each_app, Hpre. reflexivity.
Qed.

Lemma for_range_getitem_raise {S} (l : list (R * R)) k
      (step : nat -> S -> R * R -> result S) s :
  (forall i acc v, exists acc', step i acc v = Ok acc') ->
  (length l < k)%nat ->
  for_range k (fun i acc => v <- getitem l i ;; step i acc v) s
  = Raise IndexError.
Proof.
  intros Hstep Hk.
  assert (Hok : forall n, (n <= length l)%nat ->
            exists acc, for_range n
              (fun i acc => v <- getitem l i ;; step i acc v) s = Ok acc).
  { induction n as [|n IH]; intros Hn.
    - exists s. reflexivity.
    - destruct IH as [acc Hacc]; [lia|].
      rewrite for_range_S, Hacc. simpl bind.
      rewrite (getitem_ok l n (0, 0)) by lia. simpl bind. apply Hstep. }
  destruct (Hok (length l) (le_n _)) as [acc Hacc].
  eapply for_range_raise; [exact Hk | exact Hacc |].
  rewrite getitem_raise by lia. reflexivity.
Qed.

(** ** [scores_at_k] in closed form *)

Lemma epsilon_pos : 0 < epsilon.
Proof. unfold epsilon. lra. Qed.

Lemma combine_snd_nonneg (p t : list R) :
  Forall (fun x => 0 <= x) t ->
  Forall (fun v : R * R => 0 <= snd v) (combine p t).
Proof.
  intros Ht. rewrite Forall_forall in *. intros [a b] Hin.
  apply in_combine_r in Hin. simpl. apply Ht, Hin.
Qed.

Lemma sorted_rev_snd_nonneg (key : R * R -> R) (p t : list R) :
  Forall (fun x => 0 <= x) t ->
  Forall (fun v : R * R => 0 <= snd v) (sorted_rev key (combine p t)).
Proof.
  intros Ht. eapply Permutation_Forall.
  - apply Permutation_sym, sorted_rev_perm.
  - apply combine_snd_nonneg, Ht.
Qed.

Lemma Forall_firstn_of {A} (P : A -> Prop) k (l : list A) :
  Forall P l -> Forall P (firstn k l).
Proof.
  intros H. rewrite <- (firstn_skipn k l) in H.
  apply Forall_app in H. tauto.
Qed.

Lemma true_in_top_k_nonneg t p k :
  Forall (fun x => 0 <= x) t -> 0 <= true_in_top_k t p k.
Proof.
  intros Ht. unfold true_in_top_k. apply np_sum_nonneg.
  apply Forall_map, Forall_firstn_of, sorted_rev_snd_nonneg, Ht.
Qed.

Lemma map_firstn_snd_fold t p k :
  np_sum (map snd (firstn k (sorted_rev fst (combine p t))))
  = true_in_top_k t p k.
Proof. reflexivity. Qed.

Lemma np_add_0_r a : np_add a 0 = a.
Proof. destruct a; simpl; [rewrite Rplus_0_r|]; reflexivity. Qed.

Lemma np_div_fin x y : y <> 0 -> np_div (Fin x) (Fin y) = Fin (x / y).
Proof. intros H. simpl. destruct (Req_dec_T y 0); tauto. Qed.

Lemma np_div_zero x : np_div (Fin x) (Fin 0) = NanInf.
Proof. simpl. destruct (Req_dec_T 0 0); tauto. Qed.

Lemma div_by_len_ok a n :
  n <> 0%nat -> div_by_len a n = Ok (np_div a (INR n)).
Proof.
  intros H. unfold div_by_len.
  destruct (Nat.eqb_spec n 0); [contradiction | reflexivity].
Qed.

(** One sample, whenever its rows can be indexed and [k >= 1]. *)
Lemma sample_step_general truevals predvals k j acc pj tj t0 :
  nth_error predvals j = Some pj ->
  nth_error truevals j = Some tj ->
  nth_error truevals 0 = Some t0 ->
  (1 <= k <= length (combine pj tj))%nat ->
  sample_step truevals predvals k j acc
  = Ok (mkScores
          (np_add (precision_at_k acc) (sample_precision k tj pj))
          (np_add (recall_at_k acc) (np_sample_recall t0 k tj pj))
          (np_add (f1score_at_k acc) (np_sample_f1 t0 k tj pj))
          (np_add (ndcg_at_k acc) (np_sample_ndcg k tj pj))).
Proof.
  intros Hp Ht H0 Hk.
  unfold sample_step, getitem. rewrite Hp, Ht, H0. simpl bind.
  rewrite truesum_at_k_closed_form by (rewrite sorted_rev_length; lia).
  simpl bind. rewrite map_firstn_snd_fold.
  rewrite div_ok by (apply not_0_INR; lia). simpl bind.
  rewrite !dcg_at_k_closed_form by (rewrite sorted_rev_length; lia).
  simpl bind.
  unfold np_sample_f1, np_sample_recall, np_sample_ndcg, sample_precision,
    epsilon.
  destruct (Rlt_dec 0 (true_in_top_k tj pj k)); [reflexivity|].
  rewrite np_add_0_r. reflexivity.
Qed.

Lemma indexable_sample truevals predvals k j :
  indexable truevals predvals k -> (j < length truevals)%nat ->
  nth_error predvals j = Some (nth j predvals []) /\
  nth_error truevals j = Some (nth j truevals []) /\
  nth_error truevals 0 = Some (hd [] truevals) /\
  (k <= length (combine (nth j predvals []) (nth j truevals [])))%nat.
Proof.
  intros Hidx Hj. destruct (Hidx j Hj) as [Hjp Hk].
  repeat split; auto.
  - apply nth_error_nth'. exact Hjp.
  - apply nth_error_nth'. exact Hj.
  - destruct truevals; [simpl in Hj; lia | reflexivity].
Qed.

Lemma sample_loop_general truevals predvals k n :
  (1 <= k)%nat -> indexable truevals predvals k ->
  (n <= length truevals)%nat ->
  let t0 := hd [] truevals in
  for_range n (sample_step truevals predvals k) (mkScores 0 0 0 0)
  = Ok (mkScores
          (np_sum_over_samples (fun t p => Fin (sample_precision k t p))
                               truevals predvals n)
          (np_sum_over_samples (np_sample_recall t0 k) truevals predvals n)
          (np_sum_over_samples (np_sample_f1 t0 k) truevals predvals n)
          (np_sum_over_samples (np_sample_ndcg k) truevals predvals n)).
Proof.
  intros Hk Hidx Hn t0. induction n as [|n IH].
  - reflexivity.
  - rewrite for_range_S, IH by lia. simpl bind.
    destruct (indexable_sample _ _ _ n Hidx) as (Hp & Ht & H0 & Hlen); [lia|].
    rewrite (sample_step_general _ _ _ _ _ _ _ _ Hp Ht H0) by lia.
    reflexivity.
Qed.

(** [scores_at_k] whenever it can index its arguments, [k >= 1] and there
    is a sample: it returns, and each score is the numpy sum of the
    per-sample values divided by the number of samples. *)
Theorem scores_at_k_general truevals predvals k :
  truevals <> [] -> (1 <= k)%nat -> indexable truevals predvals k ->
  let t0 := hd [] truevals in
  let n := length truevals in
  scores_at_k truevals predvals k
  = Ok (mkScores
          (np_div (np_sum_over_samples
                     (fun t p => Fin (sample_precision k t p))
                     truevals predvals n) (INR n))
          (np_div (np_sum_over_samples (np_sample_recall t0 k)
                     truevals predvals n) (INR n))
          (np_div (np_sum_over_samples (np_sample_f1 t0 k)
                     truevals predvals n) (INR n))
          (np_div (np_sum_over_samples (np_sample_ndcg k)
                     truevals predvals n) (INR n))).
Proof.
  intros Hne Hk Hidx t0 n. unfold scores_at_k.
  rewrite sample_loop_general by (auto; lia). simpl bind.
  assert (Hn : length truevals <> 0%nat)
    by (destruct truevals; [congruence | simpl; lia]).
  rewrite !div_by_len_ok by exact Hn. reflexivity.
Qed.

Lemma np_sum_upto_fin (f : nat -> np_float) (g : nat -> R) n :
  (forall j, (j < n)%nat -> f j = Fin (g j)) ->
  np_sum_upto f n = Fin (sum_upto g n).
Proof.
  intros H. induction n as [|n IH]; [reflexivity|].
  simpl. rewrite IH, (H n) by (intros; auto; lia). reflexivity.
Qed.

Lemma np_sum_upto_absorbs (f : nat -> np_float) n j :
  (j < n)%nat -> f j = NanInf -> np_sum_upto f n = NanInf.
Proof.
  intros Hj Hf. induction n as [|n IH]; [lia|].
  simpl. destruct (Nat.eq_dec j n) as [-> | Hne].
  - rewrite Hf. destruct (np_sum_upto f n); reflexivity.
  - rewrite IH by lia. reflexivity.
Qed.

Lemma same_shape_length truevals predvals :
  same_shape truevals predvals -> length truevals = length predvals.
Proof. induction 1; simpl; congruence. Qed.

Lemma same_shape_nth truevals predvals j :
  same_shape truevals predvals ->
  length (nth j truevals []) = length (nth j predvals []).
Proof.
  intros H. revert j. induction H as [|t p tv pv Htp _ IH]; intros [|j];
    simpl; auto.
Qed.

Lemma well_formed_first_pos truevals predvals k :
  well_formed truevals predvals k ->
  nth_error truevals 0 = Some (hd [] truevals) /\
  0 < np_sum (hd [] truevals).
Proof.
  intros [Hne _ _ Hlab Hfirst]. destruct truevals as [|t0 tv]; [congruence|].
  simpl in *. split; [reflexivity|].
  inversion Hlab as [|? ? [_ Hpos] _]; subst.
  pose proof (np_sum_nonneg t0 Hpos). lra.
Qed.

Lemma well_formed_sample truevals predvals k j :
  well_formed truevals predvals k -> (j < length truevals)%nat ->
  nth_error predvals j = Some (nth j predvals []) /\
  nth_error truevals j = Some (nth j truevals []) /\
  length (nth j truevals []) = length (nth j predvals []) /\
  (1 <= k <= length (nth j truevals []))%nat /\
  Forall (fun x => 0 <= x) (nth j truevals []).
Proof.
  intros [_ Hshape Hk Hlab _] Hj.
  pose proof (same_shape_length _ _ Hshape) as Hlen.
  rewrite Forall_forall in Hlab.
  destruct (Hlab (nth j truevals [])) as [Hkl Hpos]; [apply nth_In, Hj|].
  repeat split; auto.
  - apply nth_error_nth'. lia.
  - apply nth_error_nth'. exact Hj.
  - apply same_shape_nth, Hshape.
Qed.

Lemma well_formed_indexable truevals predvals k :
  well_formed truevals predvals k -> indexable truevals predvals k.
Proof.
  intros Hwf j Hj.
  destruct (well_formed_sample _ _ _ j Hwf Hj) as (_ & _ & Hlen & Hk & _).
  destruct Hwf as [_ Hshape _ _ _].
  rewrite <- (same_shape_length _ _ Hshape). split; [exact Hj|].
  rewrite length_combine. lia.
Qed.

(** On a well-formed sample the numpy values are the real quotients. *)
Lemma np_sample_finite t0 k t p :
  (1 <= k)%nat -> 0 < np_sum t0 -> Forall (fun x => 0 <= x) t ->
  np_sample_recall t0 k t p = Fin (sample_recall t0 k t p) /\
  np_sample_f1 t0 k t p = Fin (sample_f1 t0 k t p) /\
  np_sample_ndcg k t p = Fin (sample_ndcg k t p).
Proof.
  intros Hk Hsum Hpos.
  assert (HINR : 0 < INR k) by (apply lt_0_INR; lia).
  pose proof (true_in_top_k_nonneg t p k Hpos) as Hts.
  pose proof (dcg_sum_nonneg (sorted_rev snd (combine p t)) k
                (sorted_rev_snd_nonneg snd p t Hpos)) as Hopt.
  assert (Hrc : np_sample_recall t0 k t p = Fin (sample_recall t0 k t p)).
  { unfold np_sample_recall, sample_recall. apply np_div_fin. lra. }
  split; [exact Hrc|]. split.
  - unfold np_sample_f1, sample_f1. rewrite Hrc.
    unfold sample_precision, sample_recall.
    destruct (Rlt_dec 0 (true_in_top_k t p k)) as [Hlt|]; [|reflexivity].
    assert (0 < true_in_top_k t p k / INR k)
      by (apply Rdiv_lt_0_compat; assumption).
    assert (0 < true_in_top_k t p k / np_sum t0)
      by (apply Rdiv_lt_0_compat; assumption).
    simpl np_mul at 2. simpl np_add. rewrite np_div_fin by lra.
    reflexivity.
  - unfold np_sample_ndcg, sample_ndcg. apply np_div_fin. lra.
Qed.

Theorem scores_at_k_closed_form truevals predvals k :
  well_formed truevals predvals k ->
  let t0 := hd [] truevals in
  scores_at_k truevals predvals k
  = Ok (mkScores
          (mean_over_samples (sample_precision k) truevals predvals)
          (mean_over_samples (sample_recall t0 k) truevals predvals)
          (mean_over_samples (sample_f1 t0 k) truevals predvals)
          (mean_over_samples (sample_ndcg k) truevals predvals)).
Proof.
  intros Hwf t0.
  assert (Hne : truevals <> []) by (destruct Hwf; assumption).
  assert (Hk : (1 <= k)%nat) by (destruct Hwf; assumption).
  destruct (well_formed_first_pos _ _ _ Hwf) as [_ Hsum].
  rewrite (scores_at_k_general _ _ _ Hne Hk (well_formed_indexable _ _ _ Hwf)).
  assert (HINR : INR (length truevals) <> 0).
  { apply not_0_INR. destruct truevals; [congruence | simpl; lia]. }
  assert (Hfin : forall j, (j < length truevals)%nat ->
            np_sample_recall t0 k (nth j truevals []) (nth j predvals [])
            = Fin (sample_recall t0 k (nth j truevals []) (nth j predvals []))
            /\
            np_sample_f1 t0 k (nth j truevals []) (nth j predvals [])
            = Fin (sample_f1 t0 k (nth j truevals []) (nth j predvals []))
            /\
            np_sample_ndcg k (nth j truevals []) (nth j predvals [])
            = Fin (sample_ndcg k (nth j truevals []) (nth j predvals []))).
  { intros j Hj. apply np_sample_finite; [exact Hk | exact Hsum|].
    apply (well_formed_sample _ _ _ j Hwf Hj). }
  unfold np_sum_over_samples, mean_over_samples, sum_over_samples.
  rewrite (np_sum_upto_fin _
             (fun j => sample_precision k (nth j truevals [])
                                        (nth j predvals [])))
    by reflexivity.
  rewrite (np_sum_upto_fin _
             (fun j => sample_recall t0 k (nth j truevals [])
                                     (nth j predvals [])))
    by (intros j Hj; apply (Hfin j Hj)).
  rewrite (np_sum_upto_fin _
             (fun j => sample_f1 t0 k (nth j truevals [])
                                 (nth j predvals [])))
    by (intros j Hj; apply (Hfin j Hj)).
  rewrite (np_sum_upto_fin _
             (fun j => sample_ndcg k (nth j truevals [])
                                  (nth j predvals [])))
    by (intros j Hj; apply (Hfin j Hj)).
  rewrite !np_div_fin by exact HINR. reflexivity.
Qed.

Lemma well_formed_example :
  well_formed [[1; 0]; [0; 1]] [[0.9; 0.2]; [0.4; 0.3]] 1.
Proof.
  constructor.
  - discriminate.
  - repeat constructor.
  - lia.
  - repeat constructor; simpl; lra.
  - unfold np_sum. simpl. lra.
Qed.

(** ** The formula of DCG and NDCG *)

Lemma truesum_at_k_raise l k :
  (length l < k)%nat -> truesum_at_k l k = Raise IndexError.
Proof.
  intros Hk. unfold truesum_at_k.
  apply (for_range_getitem_raise l k (fun i ts v => Ok (ts + snd v)));
    [|exact Hk].
  intros i acc v. eauto.
Qed.







(** ** Perfect rankings of binary ground truth *)

Lemma binary_nonneg t : binary t -> Forall (fun x => 0 <= x) t.
Proof.
  unfold binary. apply Forall_impl. intros x [-> | ->]; lra.
Qed.

Lemma np_sum_binary t : binary t -> np_sum t = INR (num_positive t).
Proof.
  unfold num_positive. induction 1 as [|x t Hx Ht IH].
  - reflexivity.
  - rewrite np_sum_cons, IH. simpl count_occ.
    destruct (Req_dec_T x 1) as [-> | Hne].
    + rewrite S_INR. lra.
    + destruct Hx as [-> | ->]; [lra | congruence].
Qed.

Lemma binary_perm t t' : Permutation t t' -> binary t -> binary t'.
Proof. unfold binary. apply Permutation_Forall. Qed.

Lemma num_positive_perm t t' :
  Permutation t t' -> num_positive t = num_positive t'.
Proof.
  intros H. unfold num_positive.
  apply (proj1 (Permutation_count_occ Req_dec_T t t') H).
Qed.

Lemma num_positive_le_length t : (num_positive t <= length t)%nat.
Proof. apply count_occ_bound. Qed.

(** A decreasing binary vector is a block of ones followed by a block of
    zeros. *)
Lemma decreasing_binary_shape u :
  binary u -> StronglySorted (fun a b => b <= a) u ->
  u = repeat 1 (num_positive u) ++ repeat 0 (length u - num_positive u).
Proof.
  unfold num_positive. induction 1 as [|x u Hx Hu IH]; intros Hs.
  - reflexivity.
  - inversion Hs as [|? ? Hs' Hall]; subst.
    pose proof (count_occ_bound Req_dec_T 1 u) as Hb.
    simpl count_occ. destruct (Req_dec_T x 1) as [-> | Hne].
    + simpl. f_equal. apply IH, Hs'.
    + destruct Hx as [-> | ->]; [|congruence].
      assert (Hzero : Forall (eq 0) u).
      { rewrite Forall_forall in *. intros y Hy.
        specialize (Hall y Hy). destruct (Hu y Hy) as [-> | ->];
          [reflexivity | lra]. }
      apply Forall_eq_repeat in Hzero.
      assert (Hc : count_occ Req_dec_T u 1 = 0%nat).
      { rewrite Hzero. apply count_occ_not_In. intros Hin.
        apply repeat_spec in Hin. lra. }
      rewrite Hc. simpl. f_equal. exact Hzero.
Qed.

Lemma map_snd_combine {A B} (p : list A) (t : list B) :
  length t = length p -> map snd (combine p t) = t.
Proof.
  revert t; induction p as [|a p IH]; intros [|b t] Hlen; simpl in *;
    try reflexivity; try discriminate.
  f_equal. apply IH. lia.
Qed.

Lemma in_combine_nth_error {A B} (p : list A) (t : list B) a b :
  In (a, b) (combine p t) ->
  exists i, nth_error p i = Some a /\ nth_error t i = Some b.
Proof.
  revert t; induction p as [|x p IH]; intros [|y t] Hin; simpl in Hin;
    try contradiction.
  destruct Hin as [Heq | Hin].
  - inversion Heq; subst. exists 0%nat. split; reflexivity.
  - destruct (IH t Hin) as (i & Hp & Ht). exists (S i). split; assumption.
Qed.

Lemma StronglySorted_weaken {A} (R1 R2 : A -> A -> Prop) l :
  (forall a b, In a l -> In b l -> R1 a b -> R2 a b) ->
  StronglySorted R1 l -> StronglySorted R2 l.
Proof.
  intros Hw Hs. induction Hs as [|a l Hs IH Hall].
  - constructor.
  - constructor.
    + apply IH. intros x y Hx Hy. apply Hw; right; assumption.
    + rewrite Forall_forall in *. intros b Hb.
      apply Hw; [left; reflexivity | right; exact Hb | apply Hall, Hb].
Qed.

Lemma StronglySorted_map {A} (key : A -> R) l :
  decreasing key l -> StronglySorted (fun a b => b <= a) (map key l).
Proof.
  unfold decreasing. induction 1 as [|a l Hs IH Hall]; simpl.
  - constructor.
  - constructor; [exact IH|].
    rewrite Forall_forall in *. intros y Hy.
    apply in_map_iff in Hy. destruct Hy as (b & <- & Hb). apply Hall, Hb.
Qed.

(** With a perfect ranking the pairs sorted by score are also in
    decreasing order of truth. *)
Lemma perfect_ranking_sorts_truth t p :
  binary t -> perfectly_ranked t p ->
  decreasing snd (sorted_rev fst (combine p t)).
Proof.
  intros Hbin Hrank. unfold decreasing.
  apply StronglySorted_weaken with (R1 := fun a b => fst b <= fst a);
    [|apply sorted_rev_decreasing].
  intros [a1 a2] [b1 b2] Ha Hb Hle. simpl in *.
  apply sorted_rev_In in Ha, Hb.
  destruct (in_combine_nth_error _ _ _ _ Ha) as (i & Hpi & Hti).
  destruct (in_combine_nth_error _ _ _ _ Hb) as (i' & Hpi' & Hti').
  unfold binary in Hbin. rewrite Forall_forall in Hbin.
  destruct (Hbin a2 (nth_error_In _ _ Hti)) as [-> | ->],
           (Hbin b2 (nth_error_In _ _ Hti')) as [-> | ->]; try lra.
  pose proof (Hrank i' i b1 a1 Hti' Hti Hpi' Hpi). lra.
Qed.

Lemma sorted_truth_shape (key : R * R -> R) t p :
  binary t -> length t = length p ->
  decreasing snd (sorted_rev key (combine p t)) ->
  map snd (sorted_rev key (combine p t))
  = repeat 1 (num_positive t) ++ repeat 0 (length t - num_positive t).
Proof.
  intros Hbin Hlen Hdec.
  assert (Hperm : Permutation (map snd (sorted_rev key (combine p t))) t).
  { rewrite <- (map_snd_combine p t Hlen) at 2.
    apply Permutation_map, sorted_rev_perm. }
  rewrite (decreasing_binary_shape (map snd (sorted_rev key (combine p t)))).
  - rewrite (num_positive_perm _ _ Hperm), (Permutation_length Hperm).
    reflexivity.
  - eapply binary_perm; [apply Permutation_sym, Hperm | exact Hbin].
  - apply StronglySorted_map, Hdec.
Qed.

Lemma perfect_ranking_same_truth_order t p :
  binary t -> length t = length p -> perfectly_ranked t p ->
  map snd (sorted_rev fst (combine p t))
  = map snd (sorted_rev snd (combine p t)).
Proof.
  intros Hbin Hlen Hrank.
  rewrite !sorted_truth_shape; auto.
  - apply sorted_rev_decreasing.
  - apply perfect_ranking_sorts_truth; assumption.
Qed.

Lemma dcg_sum_snd l l' k :
  map snd l = map snd l' -> dcg_sum l k = dcg_sum l' k.
Proof.
  intros Heq. unfold dcg_sum. induction k as [|k IH]; [reflexivity|].
  simpl. rewrite IH. f_equal. f_equal.
  change 0 with (snd (0, 0)) at 1 3.
  rewrite <- !(map_nth snd). rewrite Heq. reflexivity.
Qed.

Lemma dcg_sum_1 l : dcg_sum l 1 = snd (nth 0 l (0, 0)).
Proof.
  unfold dcg_sum. simpl. replace (0 + 2) with 2 by lra.
  rewrite log2_2. lra.
Qed.

Lemma ideal_dcg_ge_1 t p k :
  binary t -> length t = length p ->
  (1 <= num_positive t)%nat -> (1 <= k)%nat ->
  1 <= dcg_sum (sorted_rev snd (combine p t)) k.
Proof.
  intros Hbin Hlen Hpos Hk.
  pose proof (sorted_truth_shape snd t p Hbin Hlen
                (sorted_rev_decreasing snd _)) as Hshape.
  apply Rle_trans with (dcg_sum (sorted_rev snd (combine p t)) 1).
  - rewrite dcg_sum_1. change 0 with (snd (0, 0)) at 1.
    rewrite <- (map_nth snd), Hshape.
    destruct (num_positive t); [lia | simpl; lra].
  - apply dcg_sum_mono; [|exact Hk].
    apply sorted_rev_snd_nonneg, binary_nonneg, Hbin.
Qed.

Lemma ratio_bounds d :
  1 <= d -> 1 - epsilon < d / (d + 0.00000001) < 1.
Proof.
  intros Hd. unfold epsilon, Rdiv.
  assert (Hx : 0 < / (d + 0.00000001)) by (apply Rinv_0_lt_compat; lra).
  assert (Hinv : (d + 0.00000001) * / (d + 0.00000001) = 1)
    by (apply Rinv_r; lra).
  split; nra.
Qed.

Lemma sample_ndcg_perfect t p k :
  binary t -> length t = length p -> perfectly_ranked t p ->
  (1 <= num_positive t)%nat -> (1 <= k)%nat ->
  1 - epsilon < sample_ndcg k t p < 1.
Proof.
  intros Hbin Hlen Hrank Hpos Hk. unfold sample_ndcg.
  rewrite (dcg_sum_snd _ (sorted_rev snd (combine p t)) k)
    by (apply perfect_ranking_same_truth_order; assumption).
  apply ratio_bounds, ideal_dcg_ge_1; assumption.
Qed.

Lemma sum_upto_ext f g n :
  (forall j, (j < n)%nat -> f j = g j) -> sum_upto f n = sum_upto g n.
Proof.
  intros H. induction n as [|n IH]; [reflexivity|].
  simpl. rewrite IH, H by (intros; auto; lia). reflexivity.
Qed.

Lemma sum_upto_const c n : sum_upto (fun _ => c) n = INR n * c.
Proof.
  induction n as [|n IH]; [simpl; lra|].
  rewrite S_INR. simpl. rewrite IH. lra.
Qed.

Lemma sum_upto_bounds f a b n :
  (forall j, (j < n)%nat -> a < f j < b) -> (1 <= n)%nat ->
  INR n * a < sum_upto f n < INR n * b.
Proof.
  intros H Hn. induction n as [|n IH]; [lia|].
  rewrite S_INR. simpl sum_upto.
  pose proof (H n (Nat.lt_succ_diag_r n)) as Hlast.
  destruct n as [|n].
  - simpl. lra.
  - assert (INR (S n) * a < sum_upto f (S n) < INR (S n) * b)
      by (apply IH; [intros; apply H; lia | lia]).
    lra.
Qed.

Lemma Forall2_nth {A B} (P : A -> B -> Prop) l l' j d d' :
  Forall2 P l l' -> (j < length l)%nat -> P (nth j l d) (nth j l' d').
Proof.
  intros H. revert j. induction H as [|x y l l' Hxy _ IH]; intros j Hj;
    simpl in Hj; [lia|].
  destruct j as [|j]; simpl; [exact Hxy | apply IH; lia].
Qed.

Lemma perfect_input_well_formed truevals predvals k :
  truevals <> [] -> same_shape truevals predvals -> (1 <= k)%nat ->
  Forall (fun t => binary t /\ (1 <= num_positive t)%nat /\
                   (k <= length t)%nat) truevals ->
  well_formed truevals predvals k.
Proof.
  intros Hne Hshape Hk Hlab. constructor; auto.
  - eapply Forall_impl; [|exact Hlab]. simpl.
    intros t (Hbin & _ & Hlen). split; [exact Hlen | apply binary_nonneg, Hbin].
  - destruct truevals as [|t0 tv]; [congruence|]. simpl.
    inversion Hlab as [|? ? (Hbin & Hpos & _) _]; subst.
    rewrite (np_sum_binary t0 Hbin). apply not_0_INR. lia.
Qed.

(** ** NDCG of a perfect ranking *)

Ltac solve_nth_error_facts :=
  repeat match goal with
         | H : None = Some _ |- _ => discriminate H
         | H : nth_error [] ?i = Some _ |- _ => destruct i; discriminate H
         | H : Some _ = Some _ |- _ => inversion H; clear H
         end.

Ltac solve_perfectly_ranked :=
  let i := fresh "i" in
  let i' := fresh "i'" in
  intros i i' ? ? ? ? ? ?;
  destruct i as [|[|[|i]]]; destruct i' as [|[|[|i']]]; simpl in *;
  solve_nth_error_facts; subst; lra.

Ltac decide_reals :=
  repeat match goal with
         | |- context [Req_dec_T ?a ?b] => destruct (Req_dec_T a b); try lra
         | |- context [Rlt_dec ?a ?b] => destruct (Rlt_dec a b); try lra
         end.

Ltac unfold_samples :=
  unfold mean_over_samples, sum_over_samples; simpl;
  unfold sample_f1, sample_precision, sample_recall, sample_ndcg,
    true_in_top_k; simpl.

Lemma perfect_ranking_ndcg truevals predvals k :
  truevals <> [] -> same_shape truevals predvals -> (1 <= k)%nat ->
  Forall (fun t => binary t /\ (1 <= num_positive t)%nat /\
                   (k <= length t)%nat) truevals ->
  Forall2 perfectly_ranked truevals predvals ->
  exists s g, scores_at_k truevals predvals k = Ok s /\
              ndcg_at_k s = Fin g /\ 1 - epsilon < g < 1.
Proof.
  intros Hne Hshape Hk Hlab Hrank.
  pose proof (perfect_input_well_formed _ _ _ Hne Hshape Hk Hlab) as Hwf.
  eexists. eexists. split; [apply scores_at_k_closed_form, Hwf|].
  split; [reflexivity|].
  unfold mean_over_samples.
  assert (Hn : (1 <= length truevals)%nat)
    by (destruct truevals; [congruence | simpl; lia]).
  assert (HINR : 0 < INR (length truevals)) by (apply lt_0_INR; lia).
  pose proof (sum_upto_bounds
                (fun j => sample_ndcg k (nth j truevals []) (nth j predvals []))
                (1 - epsilon) 1 (length truevals)) as Hb.
  destruct Hb as [Hlo Hhi]; [|exact Hn|].
  - intros j Hj. rewrite Forall_forall in Hlab.
    destruct (Hlab (nth j truevals [])) as (Hbin & Hpos & _);
      [apply nth_In, Hj|].
    apply sample_ndcg_perfect; auto.
    + apply same_shape_nth, Hshape.
    + apply Forall2_nth; assumption.
  - unfold sum_over_samples. split.
    + apply Rmult_lt_reg_r with (INR (length truevals)); [exact HINR|].
      unfold Rdiv. rewrite Rmult_assoc, Rinv_l by lra. lra.
    + apply Rmult_lt_reg_r with (INR (length truevals)); [exact HINR|].
      unfold Rdiv. rewrite Rmult_assoc, Rinv_l by lra. lra.
Qed.

(** C1, the claim as stated fails: for the single sample with one label,
    truth 1 and score 1, and [k = 1], the ranking is perfect and
    [scores_at_k] computes NDCG@1 = 1 / (1 + 0.00000001), which is not 1. *)
Lemma perfect_ranking_ndcg_below_1 :
  binary [1] /\ num_positive [1] = 1%nat /\ perfectly_ranked [1] [1] /\
  scores_at_k [[1]] [[1]] 1 = Ok (mkScores 1 1 1 (1 / (1 + 0.00000001))) /\
  1 / (1 + 0.00000001) <> 1.
Proof.
  split; [constructor; [right; reflexivity | constructor]|].
  split; [unfold num_positive; simpl; decide_reals; reflexivity|].
  split; [solve_perfectly_ranked|].
  split; [|lra].
  rewrite scores_at_k_closed_form.
  - unfold_samples. rewrite dcg_sum_1. unfold np_sum. simpl.
    decide_reals. f_equal. f_equal; f_equal; lra.
  - constructor;
      [discriminate | repeat constructor | lia
       | repeat constructor; simpl; lra | unfold np_sum; simpl; lra].
Qed.

(** C1 as amended: for a non-empty list of samples with binary ground
    truth, each with at least one positive label, [1 <= k <=] the number of
    labels and scores that rank every positive label strictly above every
    negative one, [scores_at_k] returns an NDCG@k that is a number strictly
    between [1 - 0.0000001] and 1. *)
Theorem ndcg_of_perfect_ranking truevals predvals k :
  truevals <> [] -> same_shape truevals predvals -> (1 <= k)%nat ->
  Forall (fun t => binary t /\ (1 <= num_positive t)%nat /\
                   (k <= length t)%nat) truevals ->
  Forall2 perfectly_ranked truevals predvals ->
  exists s g, scores_at_k truevals predvals k = Ok s /\
              ndcg_at_k s = Fin g /\ 1 - 0.0000001 < g /\ g < 1.
Proof.
  intros Hne Hshape Hk Hlab Hrank.
  destruct (perfect_ranking_ndcg _ _ _ Hne Hshape Hk Hlab Hrank)
    as (s & g & Hs & Hg & Hlo & Hhi).
  exists s, g. unfold epsilon in Hlo. repeat split; auto. lra.
Qed.

Lemma ndcg_of_perfect_ranking_witness :
  exists s g,
    scores_at_k [[1; 0]; [0; 1]] [[0.9; 0.2]; [0.3; 0.4]] 1 = Ok s /\
    ndcg_at_k s = Fin g /\ 1 - 0.0000001 < g /\ g < 1.
Proof.
  apply (ndcg_of_perfect_ranking [[1; 0]; [0; 1]] [[0.9; 0.2]; [0.3; 0.4]] 1).
  - discriminate.
  - repeat constructor.
  - lia.
  - repeat (constructor; [split; [|split]|]); try constructor;
      try (unfold num_positive; simpl; decide_reals; lia);
      try (simpl; lia); auto.
  - constructor; [solve_perfectly_ranked|].
    constructor; [solve_perfectly_ranked | constructor].
Defined.

(** ** Precision and recall of a perfect ranking at [k] = number of
       positives *)

Lemma true_in_top_k_perfect t p :
  binary t -> length t = length p -> perfectly_ranked t p ->
  true_in_top_k t p (num_positive t) = INR (num_positive t).
Proof.
  intros Hbin Hlen Hrank. unfold true_in_top_k.
  rewrite <- firstn_map.
  rewrite sorted_truth_shape
    by (auto; apply perfect_ranking_sorts_truth; assumption).
  rewrite firstn_app, repeat_length, Nat.sub_diag. simpl firstn at 2.
  rewrite app_nil_r, firstn_all2 by (rewrite repeat_length; lia).
  rewrite np_sum_repeat. lra.
Qed.

Lemma mean_of_ones f truevals predvals :
  truevals <> [] ->
  (forall j, (j < length truevals)%nat ->
     f (nth j truevals []) (nth j predvals []) = 1) ->
  mean_over_samples f truevals predvals = 1.
Proof.
  intros Hne H. unfold mean_over_samples, sum_over_samples.
  rewrite (sum_upto_ext _ (fun _ => 1) _ H), sum_upto_const.
  field. apply not_0_INR. destruct truevals; [congruence | simpl; lia].
Qed.

Lemma perfect_ranking_precision_recall truevals predvals k :
  truevals <> [] -> same_shape truevals predvals -> (1 <= k)%nat ->
  Forall (fun t => binary t /\ num_positive t = k) truevals ->
  Forall2 perfectly_ranked truevals predvals ->
  exists s, scores_at_k truevals predvals k = Ok s /\
            precision_at_k s = 1 /\ recall_at_k s = 1.
Proof.
  intros Hne Hshape Hk Hlab Hrank.
  assert (Hwf : well_formed truevals predvals k).
  { apply perfect_input_well_formed; auto.
    eapply Forall_impl; [|exact Hlab]. simpl. intros t [Hbin <-].
    repeat split; [exact Hbin | exact Hk | apply num_positive_le_length]. }
  assert (HINR : INR k <> 0) by (apply not_0_INR; lia).
  assert (Htop : forall j, (j < length truevals)%nat ->
            true_in_top_k (nth j truevals []) (nth j predvals []) k = INR k).
  { intros j Hj. rewrite Forall_forall in Hlab.
    destruct (Hlab (nth j truevals [])) as [Hbin Hnum];
      [apply nth_In, Hj|].
    rewrite <- Hnum at 1 2. apply true_in_top_k_perfect.
    - exact Hbin.
    - apply same_shape_nth, Hshape.
    - apply Forall2_nth; assumption. }
  assert (Hfirst : np_sum (hd [] truevals) = INR k).
  { destruct truevals as [|t0 tv]; [congruence|]. simpl.
    inversion Hlab as [|? ? [Hbin Hnum] _]; subst.
    apply np_sum_binary, Hbin. }
  eexists. split; [apply scores_at_k_closed_form, Hwf|]. simpl. split.
  - f_equal. apply mean_of_ones; [exact Hne|]. intros j Hj.
    unfold sample_precision. rewrite (Htop j Hj). field. exact HINR.
  - f_equal. apply mean_of_ones; [exact Hne|]. intros j Hj.
    unfold sample_recall. rewrite (Htop j Hj), Hfirst. field. exact HINR.
Qed.

(** C2, the claim as stated fails for [k = 0]: a sample without positive
    labels has 0 true positives and is trivially perfectly ranked, yet
    [scores_at_k] divides [truesum = 0] by [k = 0] and raises instead of
    computing precision@k = recall@k = 1. *)
Lemma precision_recall_at_zero_raises :
  binary [0] /\ num_positive [0] = 0%nat /\ perfectly_ranked [0] [0] /\
  scores_at_k [[0]] [[0]] 0 = Raise ZeroDivisionError.
Proof.
  split; [constructor; [left; reflexivity | constructor]|].
  split; [unfold num_positive; simpl; decide_reals; reflexivity|].
  split; [solve_perfectly_ranked|].
  unfold scores_at_k, for_range, sample_step. simpl.
  rewrite div_zero. reflexivity.
Qed.

(** C2 as amended: for a non-empty list of samples with binary ground
    truth, each perfectly ranked by its scores and each with exactly [k]
    positive labels, where [k >= 1], [scores_at_k] returns precision@k = 1
    and recall@k = 1. *)
Theorem precision_recall_of_perfect_ranking truevals predvals k :
  truevals <> [] -> same_shape truevals predvals -> (1 <= k)%nat ->
  Forall (fun t => binary t /\ num_positive t = k) truevals ->
  Forall2 perfectly_ranked truevals predvals ->
  exists s, scores_at_k truevals predvals k = Ok s /\
            precision_at_k s = 1 /\ recall_at_k s = 1.
Proof. exact (perfect_ranking_precision_recall truevals predvals k). Qed.

Lemma precision_recall_of_perfect_ranking_witness :
  exists s, scores_at_k [[1; 0]; [0; 1]] [[0.9; 0.2]; [0.3; 0.4]] 1 = Ok s /\
            precision_at_k s = 1 /\ recall_at_k s = 1.
Proof.
  apply (precision_recall_of_perfect_ranking
           [[1; 0]; [0; 1]] [[0.9; 0.2]; [0.3; 0.4]] 1).
  - discriminate.
  - repeat constructor.
  - lia.
  - repeat (constructor; [split|]); try constructor;
      try (unfold num_positive; simpl; decide_reals; lia); auto.
  - constructor; [solve_perfectly_ranked|].
    constructor; [solve_perfectly_ranked | constructor].
Defined.

(** ** Zero denominators *)

Lemma truesum_at_k_safe l k :
  Forall (fun v : R * R => 0 <= snd v) l ->
  post (truesum_at_k l k) (fun ts => 0 <= ts) not_zero_division.
Proof.
  intros Hl. unfold truesum_at_k.
  apply post_for_range with (Inv := fun _ s => 0 <= s); [lra|].
  intros i s _ Hs. apply post_bind, post_getitem.
  - intros v Hv. simpl. apply nth_error_In in Hv.
    rewrite Forall_forall in Hl. specialize (Hl v Hv). lra.
  - intros _. discriminate.
Qed.

Lemma dcg_at_k_safe l k :
  Forall (fun v : R * R => 0 <= snd v) l ->
  post (dcg_at_k l k) (fun d => 0 <= d) not_zero_division.
Proof.
  intros Hl. unfold dcg_at_k.
  apply post_for_range with (Inv := fun _ s => 0 <= s); [lra|].
  intros i s _ Hs. apply post_bind, post_getitem.
  - intros v Hv. apply nth_error_In in Hv.
    rewrite Forall_forall in Hl. specialize (Hl v Hv).
    pose proof (log2_discount_pos i) as Hlog.
    apply post_bind, post_div; [|lra].
    intros _. simpl.
    assert (0 <= snd v / log2 (INR (i + 2))).
    { apply Rmult_le_pos; [exact Hl|]. left. apply Rinv_0_lt_compat, Hlog. }
    lra.
  - intros _. discriminate.
Qed.

Lemma finite_np_add a b : finite a -> finite b -> finite (np_add a b).
Proof. intros [x ->] [y ->]. simpl. eexists. reflexivity. Qed.

Lemma finite_np_mul a b : finite a -> finite b -> finite (np_mul a b).
Proof. intros [x ->] [y ->]. simpl. eexists. reflexivity. Qed.

Lemma finite_np_div a y : finite a -> y <> 0 -> finite (np_div a (Fin y)).
Proof. intros [x ->] Hy. rewrite np_div_fin by exact Hy. eexists. reflexivity. Qed.

Lemma finite_Fin x : finite (Fin x).
Proof. eexists. reflexivity. Qed.

Lemma positive_labels_sum t :
  binary t -> (1 <= num_positive t)%nat -> 1 <= np_sum t.
Proof.
  intros Hbin Hpos. rewrite (np_sum_binary t Hbin).
  change 1 with (INR 1). apply le_INR. exact Hpos.
Qed.

Lemma sample_step_safe truevals predvals k j acc :
  (1 <= k)%nat ->
  Forall (fun t => binary t /\ (1 <= num_positive t)%nat) truevals ->
  finite_scores acc ->
  post (sample_step truevals predvals k j acc) finite_scores
       not_zero_division.
Proof.
  intros Hk Hlab (Hfp & Hfr & Hff & Hfn). unfold sample_step.
  rewrite Forall_forall in Hlab.
  apply post_bind, post_getitem; [intros pj _ | intros _; discriminate].
  apply post_bind, post_getitem; [intros tj Htj | intros _; discriminate].
  cbv zeta.
  assert (Htjpos : Forall (fun x => 0 <= x) tj).
  { apply binary_nonneg, Hlab. eapply nth_error_In, Htj. }
  assert (HINR : 0 < INR k) by (apply lt_0_INR; lia).
  apply post_bind.
  apply post_mono with (Q := fun ts => 0 <= ts) (E := not_zero_division);
    [|auto|apply truesum_at_k_safe, sorted_rev_snd_nonneg, Htjpos].
  intros ts Hts.
  apply post_bind, post_div; [intros _|lra].
  apply post_bind, post_getitem; [intros t0 Ht0 | intros _; discriminate].
  assert (Hsum : 1 <= np_sum t0).
  { apply nth_error_In in Ht0. destruct (Hlab t0 Ht0) as [Hb Hp].
    apply positive_labels_sum; assumption. }
  apply post_bind.
  apply post_mono with (Q := fun _ => True) (E := not_zero_division);
    [|auto|].
  2: { eapply post_mono; [| |apply dcg_at_k_safe,
                               (sorted_rev_snd_nonneg fst), Htjpos]; auto. }
  intros d _. apply post_bind.
  apply post_mono with (Q := fun o => 0 <= o) (E := not_zero_division);
    [|auto|apply dcg_at_k_safe, sorted_rev_snd_nonneg, Htjpos].
  intros o Ho. pose proof epsilon_pos. unfold post, finite_scores.
  cbn [precision_at_k recall_at_k f1score_at_k ndcg_at_k].
  assert (Hrc : finite (np_div ts (np_sum t0)))
    by (apply finite_np_div; [apply finite_Fin | lra]).
  split; [|split; [|split]].
  - apply finite_np_add; [exact Hfp | apply finite_Fin].
  - apply finite_np_add; assumption.
  - destruct (Rlt_dec 0 ts) as [Hlt|]; [|exact Hff].
    apply finite_np_add; [exact Hff|].
    rewrite np_div_fin by lra.
    assert (0 < ts / INR k) by (apply Rdiv_lt_0_compat; lra).
    assert (0 < ts / np_sum t0) by (apply Rdiv_lt_0_compat; lra).
    simpl np_mul at 2. simpl np_add.
    apply finite_np_mul; [apply finite_Fin|].
    apply finite_np_div; [apply finite_Fin | lra].
  - apply finite_np_add; [exact Hfn|].
    apply finite_np_div; [apply finite_Fin | lra].
Qed.

Lemma sample_loop_safe truevals predvals k n :
  (1 <= k)%nat ->
  Forall (fun t => binary t /\ (1 <= num_positive t)%nat) truevals ->
  post (for_range n (sample_step truevals predvals k) (mkScores 0 0 0 0))
       finite_scores not_zero_division.
Proof.
  intros Hk Hlab.
  apply post_for_range with (Inv := fun _ acc => finite_scores acc).
  - repeat split; apply finite_Fin.
  - intros j acc _ Hacc. apply sample_step_safe; assumption.
Qed.

Lemma scores_at_k_safe truevals predvals k :
  (1 <= k)%nat -> truevals <> [] ->
  Forall (fun t => binary t /\ (1 <= num_positive t)%nat) truevals ->
  post (scores_at_k truevals predvals k) finite_scores not_zero_division.
Proof.
  intros Hk Hne Hlab. unfold scores_at_k.
  assert (Hn : length truevals <> 0%nat)
    by (destruct truevals; [congruence | simpl; lia]).
  assert (HINR : INR (length truevals) <> 0) by (apply not_0_INR, Hn).
  apply post_bind.
  apply post_mono with (Q := finite_scores) (E := not_zero_division);
    [|auto|apply sample_loop_safe; assumption].
  intros acc (Hfp & Hfr & Hff & Hfn). cbv zeta.
  rewrite !div_by_len_ok by exact Hn. simpl.
  repeat split; apply finite_np_div; assumption.
Qed.

Lemma indexable_single t p k :
  (k <= length (combine p t))%nat -> indexable [t] [p] k.
Proof.
  intros Hk j Hj. simpl in Hj. assert (j = 0)%nat by lia. subst j.
  split; [simpl; lia | exact Hk].
Qed.

(** Evaluation of [scores_at_k] on given numbers: every comparison and
    every test of a denominator is settled by arithmetic. *)
Ltac settle_reals :=
  repeat match goal with
         | |- context [Rlt_dec ?a ?b] =>
             first [ assert (a < b) by lra;
                     destruct (Rlt_dec a b); [|contradiction]
                   | assert (~ a < b) by lra;
                     destruct (Rlt_dec a b); [contradiction|] ]
         | |- context [Req_dec_T ?a ?b] =>
             first [ assert (a = b) by lra;
                     destruct (Req_dec_T a b); [|contradiction]
                   | assert (a <> b) by lra;
                     destruct (Req_dec_T a b); [contradiction|] ]
         end.

Ltac run_scores :=
  unfold np_sum_over_samples, np_sample_f1, np_sample_ndcg,
    np_sample_recall, sample_precision, true_in_top_k, dcg_sum, np_sum;
  repeat (progress
            (cbn [np_sum_upto sum_upto nth hd length combine sorted_rev
                  fold_right insert_rev fst snd firstn map fold_left INR
                  np_add np_mul np_div];
             try (replace (0 + 2) with 2 by lra; rewrite log2_2);
             settle_reals)).

(** C3, the claim as stated fails.  With no sample at all the final
    divisions by [len(truevals)] have a zero denominator and the first of
    them raises.  When the first sample has no positive label the recall
    denominator [np.sum(truevals[0])] is zero and the recall reported is
    not a number.  With truth values 1 and -2 the denominator [pr + rc] of
    the F1 term is zero and the F1 reported is infinite.  No epsilon guards
    any of them. *)
Lemma unguarded_zero_denominators :
  scores_at_k [] [] 1 = Raise ZeroDivisionError /\
  scores_at_k [[0]] [[0.5]] 1 = Ok (mkScores 0 NanInf 0 0) /\
  scores_at_k [[1; -2]] [[0.9; 0.1]] 1
  = Ok (mkScores 1 (-1) NanInf (1 / (1 + 0.00000001))).
Proof.
  split; [|split].
  - reflexivity.
  - rewrite scores_at_k_general;
      [|discriminate | lia | apply indexable_single; simpl; lia].
    run_scores.
    f_equal. f_equal; first [reflexivity | f_equal; lra].
  - rewrite scores_at_k_general;
      [|discriminate | lia | apply indexable_single; simpl; lia].
    run_scores.
    f_equal. f_equal; first [reflexivity | f_equal; lra].
Qed.

(** C3 as amended: for [k >= 1], at least one sample and binary ground
    truth in which every sample has at least one positive label, no
    division performed by [scores_at_k] has a zero denominator:
    [ZeroDivisionError] is not raised, and the accumulated scores after any
    number of samples, and the scores returned, are numbers. *)
Theorem no_zero_denominator truevals predvals k :
  (1 <= k)%nat -> truevals <> [] ->
  Forall (fun t => binary t /\ (1 <= num_positive t)%nat) truevals ->
  scores_at_k truevals predvals k <> Raise ZeroDivisionError /\
  (forall s, scores_at_k truevals predvals k = Ok s -> finite_scores s) /\
  (forall n acc,
     for_range n (sample_step truevals predvals k) (mkScores 0 0 0 0)
     = Ok acc -> finite_scores acc).
Proof.
  intros Hk Hne Hlab.
  pose proof (scores_at_k_safe truevals predvals k Hk Hne Hlab) as H.
  split; [|split].
  - intros Hraise. rewrite Hraise in H. simpl in H. apply H. reflexivity.
  - intros s Hs. rewrite Hs in H. exact H.
  - intros n acc Hacc.
    pose proof (sample_loop_safe truevals predvals k n Hk Hlab) as Hn.
    rewrite Hacc in Hn. exact Hn.
Qed.

Lemma no_zero_denominator_witness :
  scores_at_k [[1; 0]; [0; 1]] [[0.9; 0.2]; [0.3; 0.4]] 1
  <> Raise ZeroDivisionError.
Proof.
  apply (no_zero_denominator [[1; 0]; [0; 1]] [[0.9; 0.2]; [0.3; 0.4]] 1).
  - lia.
  - discriminate.
  - repeat (apply Forall_cons;
            [split; [unfold binary;
                     repeat first
                       [ apply Forall_nil
                       | apply Forall_cons;
                         [first [left; reflexivity | right; reflexivity]|] ]
                    | unfold num_positive; simpl; decide_reals; lia]|]).
    apply Forall_nil.
Defined.

(** ** Recall is computed against the first sample *)

(** C6: on the two samples with truth [[1, 0]] and [[1, 1]], each with its
    first label scored highest, and [k = 1], [scores_at_k] divides both
    samples' hits by [np.sum(truevals[0]) = 1] and returns recall@1 = 1,
    whereas the mean over the samples of hits / (true labels of that
    sample) is (1/1 + 1/2) / 2 = 3/4. *)
Theorem recall_divides_by_first_sample :
  let truevals := [[1; 0]; [1; 1]] in
  let predvals := [[0.9; 0.1]; [0.9; 0.8]] in
  (exists s, scores_at_k truevals predvals 1 = Ok s /\
             precision_at_k s = 1 /\ recall_at_k s = 1) /\
  mean_recall truevals predvals 1 = 3 / 4.
Proof.
  intros truevals predvals. split.
  - eexists. split.
    + apply scores_at_k_closed_form. constructor.
      * discriminate.
      * repeat constructor.
      * lia.
      * repeat constructor; simpl; lra.
      * unfold np_sum. simpl. lra.
    + simpl. unfold_samples. decide_reals. simpl.
      unfold np_sum. simpl. split; f_equal; lra.
  - unfold mean_recall. unfold_samples. decide_reals. simpl.
    unfold np_sum. simpl. lra.
Qed.

(** * Further properties of the ranking metrics *)

(** ** Index errors *)

(** [dcg_at_k] raises [IndexError] exactly when [k] exceeds the number of
    pairs; otherwise it returns the closed-form sum. *)
Theorem dcg_at_k_index_error vals k :
  (dcg_at_k vals k = Raise IndexError <-> (length vals < k)%nat) /\
  (dcg_at_k vals k = Ok (dcg_sum vals k) <-> (k <= length vals)%nat).
Proof.
  assert (Hraise : (length vals < k)%nat -> dcg_at_k vals k = Raise IndexError).
  { intros Hk. unfold dcg_at_k.
    apply (for_range_getitem_raise vals k
             (fun i res v => d <- div (snd v) (log2 (INR (i + 2))) ;;
                             Ok (res + d))); [|exact Hk].
    intros i acc v. rewrite div_ok.
    - simpl. eauto.
    - pose proof (log2_discount_pos i). lra. }
  split; split.
  - intros H. destruct (Nat.lt_ge_cases (length vals) k) as [|Hle]; [assumption|].
    rewrite dcg_at_k_closed_form in H by exact Hle. discriminate.
  - exact Hraise.
  - intros H. destruct (Nat.lt_ge_cases (length vals) k) as [Hlt|]; [|assumption].
    rewrite Hraise in H by exact Hlt. discriminate.
  - apply dcg_at_k_closed_form.
Qed.

(** When [k] exceeds the number of labels of the first sample,
    [scores_at_k] raises [IndexError]. *)
Theorem scores_at_k_k_too_large t0 p0 truevals predvals k :
  (Nat.min (length p0) (length t0) < k)%nat ->
  scores_at_k (t0 :: truevals) (p0 :: predvals) k = Raise IndexError.
Proof.
  intros Hk.
  apply (scores_at_k_propagates _ _ _ 0%nat (mkScores 0 0 0 0));
    [simpl; lia | reflexivity |].
  unfold sample_step. simpl getitem. simpl bind.
  rewrite truesum_at_k_raise; [reflexivity|].
  rewrite sorted_rev_length, length_combine. exact Hk.
Qed.

Lemma scores_at_k_k_too_large_witness :
  scores_at_k [[1; 0]] [[0.9; 0.2]] 3 = Raise IndexError.
Proof.
  apply (scores_at_k_k_too_large [1; 0] [0.9; 0.2] [] [] 3).
  simpl. lia.
Defined.

(** With fewer prediction rows than ground-truth rows [scores_at_k] never
    returns a value. *)
Theorem scores_at_k_missing_predictions truevals predvals k :
  (length predvals < length truevals)%nat ->
  exists e, scores_at_k truevals predvals k = Raise e.
Proof.
  intros Hlen.
  destruct (for_range_raise_at (length truevals)
              (sample_step truevals predvals k) (mkScores 0 0 0 0)
              (length predvals) IndexError Hlen) as [e He].
  - intros acc. unfold sample_step.
    rewrite getitem_raise by lia. reflexivity.
  - exists e. unfold scores_at_k. rewrite He. reflexivity.
Qed.

Lemma scores_at_k_missing_predictions_witness :
  exists e, scores_at_k [[1; 0]; [0; 1]] [[0.9; 0.2]] 1 = Raise e.
Proof.
  apply (scores_at_k_missing_predictions [[1; 0]; [0; 1]] [[0.9; 0.2]] 1).
  simpl. lia.
Defined.

(** ** The ideal DCG bounds the DCG of the predicted order *)

Lemma decreasing_perm_unique (l1 l2 : list R) :
  StronglySorted (fun a b => b <= a) l1 ->
  StronglySorted (fun a b => b <= a) l2 ->
  Permutation l1 l2 -> l1 = l2.
Proof.
  revert l2. induction l1 as [|a l1 IH]; intros l2 H1 H2 Hperm.
  - apply Permutation_nil in Hperm. congruence.
  - destruct l2 as [|b l2].
    + apply Permutation_sym, Permutation_nil in Hperm. discriminate.
    + inversion H1 as [|? ? Hs1 Ha]; subst.
      inversion H2 as [|? ? Hs2 Hb]; subst.
      rewrite Forall_forall in Ha, Hb.
      assert (Hab : a = b).
      { assert (Hin1 : In a (b :: l2))
          by (eapply Permutation_in; [exact Hperm | left; reflexivity]).
        assert (Hin2 : In b (a :: l1))
          by (eapply Permutation_in;
              [apply Permutation_sym, Hperm | left; reflexivity]).
        destruct Hin1 as [-> | Hin1]; [reflexivity|].
        destruct Hin2 as [-> | Hin2]; [reflexivity|].
        specialize (Ha b Hin2). specialize (Hb a Hin1). lra. }
      subst b. f_equal. apply IH; auto.
      eapply Permutation_cons_inv, Hperm.
Qed.

Lemma prefix_insert_rev x s m :
  x + np_sum (firstn m s)
  <= np_sum (firstn (S m) (insert_rev (fun y => y) x s)).
Proof.
  revert m. induction s as [|y s IH]; intros m.
  - simpl insert_rev. rewrite !firstn_nil. simpl firstn.
    rewrite firstn_nil, np_sum_cons. lra.
  - simpl insert_rev. destruct (Rlt_dec x y) as [Hlt | Hge].
    + destruct m as [|m].
      * simpl firstn. rewrite !np_sum_cons. change (np_sum []) with 0. lra.
      * specialize (IH m). simpl firstn in *.
        rewrite !np_sum_cons in *. lra.
    + simpl firstn. rewrite !np_sum_cons. lra.
Qed.

Lemma prefix_dominated l m :
  np_sum (firstn m l) <= np_sum (firstn m (sorted_rev (fun y => y) l)).
Proof.
  revert m. induction l as [|x l IH]; intros m.
  - simpl sorted_rev. lra.
  - destruct m as [|m]; [simpl firstn; lra|].
    simpl sorted_rev. simpl firstn at 1. rewrite np_sum_cons.
    pose proof (prefix_insert_rev x (sorted_rev (fun y => y) l) m).
    specialize (IH m). lra.
Qed.

Lemma prefix_sum_upto (u : list R) m :
  np_sum (firstn m u) = sum_upto (fun i => nth i u 0) m.
Proof.
  induction m as [|m IH]; [reflexivity|].
  simpl sum_upto. rewrite <- IH.
  destruct (Nat.lt_ge_cases m (length u)) as [Hlt | Hge].
  - rewrite (firstn_succ u m 0 Hlt), np_sum_app, np_sum_cons.
    change (np_sum []) with 0. lra.
  - rewrite !firstn_all2 by lia. rewrite nth_overflow by exact Hge. lra.
Qed.

(** Summation by parts: prefix domination carries over to sums weighted
    by non-negative decreasing weights. *)
Lemma weighted_sum_dominated (a b w : nat -> R) k :
  (forall m, sum_upto a m <= sum_upto b m) ->
  (forall i, 0 <= w (S i) <= w i) ->
  sum_upto (fun i => a i * w i) k <= sum_upto (fun i => b i * w i) k.
Proof.
  intros Hpre Hw.
  assert (H : w k * (sum_upto b k - sum_upto a k)
              <= sum_upto (fun i => b i * w i) k
                 - sum_upto (fun i => a i * w i) k).
  { induction k as [|k IH]; [simpl; lra|].
    simpl sum_upto.
    pose proof (Hpre k) as Hk. pose proof (Hpre (S k)) as HSk.
    simpl in HSk. pose proof (Hw k) as [Hw0 Hw1]. nra. }
  pose proof (Hpre k). 
  assert (0 <= w k).
  { destruct k as [|k]; [|apply Hw].
    pose proof (Hw 0%nat). lra. }
  nra.
Qed.

Lemma discount_decreasing i :
  0 <= / log2 (INR (S i) + 2) <= / log2 (INR i + 2).
Proof.
  pose proof (log2_discount_pos i) as Hi.
  pose proof (log2_discount_pos (S i)) as HSi.
  rewrite INR_plus_2 in Hi, HSi. split.
  - left. apply Rinv_0_lt_compat. exact HSi.
  - apply Rinv_le_contravar; [exact Hi|].
    unfold log2. apply Rmult_le_compat_r.
    + left. apply Rinv_0_lt_compat, ln_2_pos.
    + left. apply ln_increasing.
      * pose proof (pos_INR i). lra.
      * rewrite S_INR. lra.
Qed.

Lemma dcg_sum_weighted l k :
  dcg_sum l k
  = sum_upto (fun i => nth i (map snd l) 0 * / log2 (INR i + 2)) k.
Proof.
  unfold dcg_sum. apply sum_upto_ext. intros j _.
  change 0 with (snd (0, 0)) at 3. rewrite (map_nth snd). reflexivity.
Qed.

Lemma decreasing_id (l : list R) :
  StronglySorted (fun a b => b <= a) (sorted_rev (fun y => y) l).
Proof.
  pose proof (StronglySorted_map (fun y : R => y) _
                (sorted_rev_decreasing (fun y : R => y) l)) as H.
  rewrite map_id in H. exact H.
Qed.

Lemma dcg_sum_le_ideal (z : list (R * R)) k :
  dcg_sum (sorted_rev fst z) k <= dcg_sum (sorted_rev snd z) k.
Proof.
  rewrite !dcg_sum_weighted.
  apply weighted_sum_dominated; [|apply discount_decreasing].
  intros m. rewrite <- !prefix_sum_upto.
  replace (map snd (sorted_rev snd z))
    with (sorted_rev (fun y => y) (map snd (sorted_rev fst z))).
  - apply prefix_dominated.
  - rewrite <- (sorted_rev_map snd (fun y => y) snd z)
      by (intros; reflexivity).
    apply decreasing_perm_unique.
    + apply decreasing_id.
    + apply decreasing_id.
    + rewrite (sorted_rev_perm (fun y => y)).
      rewrite (sorted_rev_perm (fun y => y)).
      apply Permutation_map, sorted_rev_perm.
Qed.

Ltac solve_binary :=
  unfold binary;
  repeat first
    [ apply Forall_nil
    | apply Forall_cons; [first [left; reflexivity | right; reflexivity]|] ].

(** For every list of pairs with binary truth values and at least [k]
    entries, [dcg_at_k] of the pairs sorted by decreasing score is at most
    [dcg_at_k] of the pairs sorted by decreasing truth. *)
Theorem dcg_at_most_ideal (z : list (R * R)) k :
  (k <= length z)%nat -> binary (map snd z) ->
  exists d o, dcg_at_k (sorted_rev fst z) k = Ok d /\
              dcg_at_k (sorted_rev snd z) k = Ok o /\ d <= o.
Proof.
  intros Hk _. exists (dcg_sum (sorted_rev fst z) k),
    (dcg_sum (sorted_rev snd z) k).
  split; [|split].
  - apply dcg_at_k_closed_form. rewrite sorted_rev_length. exact Hk.
  - apply dcg_at_k_closed_form. rewrite sorted_rev_length. exact Hk.
  - apply dcg_sum_le_ideal.
Qed.

Lemma dcg_at_most_ideal_witness :
  exists d o,
    dcg_at_k (sorted_rev fst [(0.2, 1); (0.9, 0); (0.5, 1)]) 2 = Ok d /\
    dcg_at_k (sorted_rev snd [(0.2, 1); (0.9, 0); (0.5, 1)]) 2 = Ok o /\
    d <= o.
Proof.
  apply (dcg_at_most_ideal [(0.2, 1); (0.9, 0); (0.5, 1)] 2).
  - simpl. lia.
  - simpl. solve_binary.
Defined.

(** ** Ranges of the reported scores *)

Lemma sum_upto_nonneg f n :
  (forall j, (j < n)%nat -> 0 <= f j) -> 0 <= sum_upto f n.
Proof.
  intros H. induction n as [|n IH]; [simpl; lra|].
  simpl. pose proof (H n (Nat.lt_succ_diag_r n)).
  assert (0 <= sum_upto f n) by (apply IH; intros; apply H; lia). lra.
Qed.

Lemma sum_upto_le f c n :
  (forall j, (j < n)%nat -> f j <= c) -> sum_upto f n <= INR n * c.
Proof.
  intros H. induction n as [|n IH]; [simpl; lra|].
  rewrite S_INR. simpl. pose proof (H n (Nat.lt_succ_diag_r n)).
  assert (sum_upto f n <= INR n * c) by (apply IH; intros; apply H; lia).
  lra.
Qed.

Lemma mean_nonneg f truevals predvals :
  (forall j, (j < length truevals)%nat ->
     0 <= f (nth j truevals []) (nth j predvals [])) ->
  0 <= mean_over_samples f truevals predvals.
Proof.
  intros H. unfold mean_over_samples, sum_over_samples.
  apply Rmult_le_pos; [apply sum_upto_nonneg, H|].
  destruct (length truevals) as [|n] eqn:Hn.
  - simpl. rewrite Rinv_0. lra.
  - left. apply Rinv_0_lt_compat, lt_0_INR. lia.
Qed.

Lemma mean_le f c truevals predvals :
  truevals <> [] ->
  (forall j, (j < length truevals)%nat ->
     f (nth j truevals []) (nth j predvals []) <= c) ->
  mean_over_samples f truevals predvals <= c.
Proof.
  intros Hne H. unfold mean_over_samples, sum_over_samples.
  assert (HINR : 0 < INR (length truevals)).
  { apply lt_0_INR. destruct truevals; [congruence | simpl; lia]. }
  pose proof (sum_upto_le _ c _ H) as Hle.
  apply Rmult_le_reg_r with (INR (length truevals)); [exact HINR|].
  unfold Rdiv. rewrite Rmult_assoc, Rinv_l by lra. lra.
Qed.

Lemma mean_lt f c truevals predvals :
  truevals <> [] ->
  (forall j, (j < length truevals)%nat ->
     f (nth j truevals []) (nth j predvals []) < c) ->
  mean_over_samples f truevals predvals < c.
Proof.
  intros Hne H. unfold mean_over_samples, sum_over_samples.
  assert (Hn : (1 <= length truevals)%nat)
    by (destruct truevals; [congruence | simpl; lia]).
  assert (HINR : 0 < INR (length truevals)) by (apply lt_0_INR; lia).
  assert (Hlt : sum_upto (fun j => f (nth j truevals []) (nth j predvals []))
                  (length truevals) < INR (length truevals) * c).
  { generalize Hn H. generalize (length truevals) as n.
    intros n. induction n as [|n IH]; intros Hn' H'; [lia|].
    rewrite S_INR. simpl sum_upto.
    pose proof (H' n (Nat.lt_succ_diag_r n)).
    destruct n as [|n]; [simpl; lra|].
    assert (sum_upto (fun j => f (nth j truevals []) (nth j predvals []))
              (S n) < INR (S n) * c)
      by (apply IH; [lia | intros; apply H'; lia]).
    lra. }
  apply Rmult_lt_reg_r with (INR (length truevals)); [exact HINR|].
  unfold Rdiv. rewrite Rmult_assoc, Rinv_l by lra. lra.
Qed.

Lemma sample_ndcg_range t p k :
  Forall (fun x => 0 <= x) t -> 0 <= sample_ndcg k t p < 1.
Proof.
  intros Hpos. unfold sample_ndcg.
  pose proof (dcg_sum_le_ideal (combine p t) k) as Hle.
  pose proof (dcg_sum_nonneg _ k (sorted_rev_snd_nonneg fst p t Hpos)) as Hd.
  pose proof (dcg_sum_nonneg _ k (sorted_rev_snd_nonneg snd p t Hpos)) as Ho.
  set (d := dcg_sum (sorted_rev fst (combine p t)) k) in *.
  set (o := dcg_sum (sorted_rev snd (combine p t)) k) in *.
  assert (Hx : 0 < / (o + 0.00000001)) by (apply Rinv_0_lt_compat; lra).
  assert (Hinv : (o + 0.00000001) * / (o + 0.00000001) = 1)
    by (apply Rinv_r; lra).
  unfold Rdiv. split; nra.
Qed.

Lemma sample_f1_nonneg t0 t p k :
  (1 <= k)%nat -> 0 < np_sum t0 -> 0 <= sample_f1 t0 k t p.
Proof.
  intros Hk Hsum. unfold sample_f1, sample_precision, sample_recall.
  destruct (Rlt_dec 0 (true_in_top_k t p k)) as [Hlt|]; [|lra].
  assert (HINR : 0 < INR k) by (apply lt_0_INR; lia).
  assert (Hpr : 0 < true_in_top_k t p k / INR k)
    by (apply Rdiv_lt_0_compat; assumption).
  assert (Hrc : 0 < true_in_top_k t p k / np_sum t0)
    by (apply Rdiv_lt_0_compat; assumption).
  assert (0 < true_in_top_k t p k / INR k * (true_in_top_k t p k / np_sum t0)
              / (true_in_top_k t p k / INR k + true_in_top_k t p k / np_sum t0)).
  { apply Rdiv_lt_0_compat; [apply Rmult_lt_0_compat; assumption | lra]. }
  lra.
Qed.

Lemma mean_le_1 f truevals predvals :
  truevals <> [] ->
  (forall j, (j < length truevals)%nat ->
     f (nth j truevals []) (nth j predvals []) < 1) ->
  mean_over_samples f truevals predvals <= 1.
Proof. intros Hne H. left. apply mean_lt; assumption. Qed.

(** On a well-formed input with binary ground truth [scores_at_k] returns
    numbers: precision@k, recall@k and F1@k are non-negative and NDCG@k
    lies between 0 and 1. *)
Theorem scores_at_k_ranges truevals predvals k :
  well_formed truevals predvals k -> Forall binary truevals ->
  exists s p r f g,
    scores_at_k truevals predvals k = Ok s /\
    precision_at_k s = Fin p /\ recall_at_k s = Fin r /\
    f1score_at_k s = Fin f /\ ndcg_at_k s = Fin g /\
    0 <= p /\ 0 <= r /\ 0 <= f /\ 0 <= g <= 1.
Proof.
  intros Hwf _.
  destruct (well_formed_first_pos _ _ _ Hwf) as [_ Hsum].
  assert (Hk : (1 <= k)%nat) by (destruct Hwf; assumption).
  assert (Hne : truevals <> []) by (destruct Hwf; assumption).
  assert (HINR : 0 < INR k) by (apply lt_0_INR; lia).
  assert (Hpos : forall j, (j < length truevals)%nat ->
            Forall (fun x => 0 <= x) (nth j truevals [])).
  { intros j Hj. apply (well_formed_sample _ _ _ j Hwf Hj). }
  eexists. eexists. eexists. eexists. eexists.
  split; [apply scores_at_k_closed_form, Hwf|].
  cbn [precision_at_k recall_at_k f1score_at_k ndcg_at_k].
  split; [reflexivity|]. split; [reflexivity|].
  split; [reflexivity|]. split; [reflexivity|].
  split; [|split; [|split; [|split]]].
  - apply mean_nonneg. intros j Hj. unfold sample_precision.
    apply Rmult_le_pos; [apply true_in_top_k_nonneg, Hpos, Hj|].
    left. apply Rinv_0_lt_compat, HINR.
  - apply mean_nonneg. intros j Hj. unfold sample_recall.
    apply Rmult_le_pos; [apply true_in_top_k_nonneg, Hpos, Hj|].
    left. apply Rinv_0_lt_compat, Hsum.
  - apply mean_nonneg. intros j Hj. apply sample_f1_nonneg; assumption.
  - apply mean_nonneg. intros j Hj. apply sample_ndcg_range, Hpos, Hj.
  - apply mean_le_1; [exact Hne|]. intros j Hj.
    apply sample_ndcg_range, Hpos, Hj.
Qed.

Lemma scores_at_k_ranges_witness :
  exists s p r f g,
    scores_at_k [[1; 0]; [0; 1]] [[0.9; 0.2]; [0.4; 0.3]] 1 = Ok s /\
    precision_at_k s = Fin p /\ recall_at_k s = Fin r /\
    f1score_at_k s = Fin f /\ ndcg_at_k s = Fin g /\
    0 <= p /\ 0 <= r /\ 0 <= f /\ 0 <= g <= 1.
Proof.
  apply (scores_at_k_ranges [[1; 0]; [0; 1]] [[0.9; 0.2]; [0.4; 0.3]] 1).
  - exact well_formed_example.
  - repeat (apply Forall_cons; [solve_binary|]). apply Forall_nil.
Defined.

Lemma np_sum_le_length l :
  Forall (fun x => x <= 1) l -> np_sum l <= INR (length l).
Proof.
  induction 1 as [|x l Hx Hl IH].
  - simpl. change (np_sum []) with 0. lra.
  - rewrite np_sum_cons. simpl length. rewrite S_INR. lra.
Qed.

Lemma true_in_top_k_le_k t p k :
  binary t -> true_in_top_k t p k <= INR k.
Proof.
  intros Hbin. unfold true_in_top_k.
  apply Rle_trans with
    (INR (length (map snd (firstn k (sorted_rev fst (combine p t)))))).
  - apply np_sum_le_length, Forall_map, Forall_firstn_of.
    eapply Permutation_Forall; [apply Permutation_sym, sorted_rev_perm|].
    rewrite Forall_forall. intros [a b] Hin. apply in_combine_r in Hin.
    unfold binary in Hbin. rewrite Forall_forall in Hbin.
    destruct (Hbin b Hin) as [-> | ->]; simpl; lra.
  - apply le_INR. rewrite length_map, length_firstn. lia.
Qed.

(** On a well-formed input with binary ground truth precision@k lies
    between 0 and 1. *)
Theorem precision_in_unit_interval truevals predvals k :
  well_formed truevals predvals k -> Forall binary truevals ->
  exists s p, scores_at_k truevals predvals k = Ok s /\
              precision_at_k s = Fin p /\ 0 <= p <= 1.
Proof.
  intros Hwf Hbin.
  assert (Hk : (1 <= k)%nat) by (destruct Hwf; assumption).
  assert (Hne : truevals <> []) by (destruct Hwf; assumption).
  assert (HINR : 0 < INR k) by (apply lt_0_INR; lia).
  eexists. eexists. split; [apply scores_at_k_closed_form, Hwf|].
  cbn [precision_at_k]. split; [reflexivity|]. split.
  - apply mean_nonneg. intros j Hj. unfold sample_precision.
    apply Rmult_le_pos.
    + apply true_in_top_k_nonneg, (well_formed_sample _ _ _ j Hwf Hj).
    + left. apply Rinv_0_lt_compat, HINR.
  - apply mean_le; [exact Hne|]. intros j Hj. unfold sample_precision.
    apply Rmult_le_reg_r with (INR k); [exact HINR|].
    unfold Rdiv. rewrite Rmult_assoc, Rinv_l by lra.
    rewrite Forall_forall in Hbin.
    pose proof (true_in_top_k_le_k (nth j truevals []) (nth j predvals []) k
                  (Hbin _ (nth_In _ _ Hj))). lra.
Qed.

Lemma precision_in_unit_interval_witness :
  exists s p,
    scores_at_k [[1; 0]; [0; 1]] [[0.9; 0.2]; [0.4; 0.3]] 1 = Ok s /\
    precision_at_k s = Fin p /\ 0 <= p <= 1.
Proof.
  apply (precision_in_unit_interval
           [[1; 0]; [0; 1]] [[0.9; 0.2]; [0.4; 0.3]] 1).
  - exact well_formed_example.
  - repeat (apply Forall_cons; [solve_binary|]). apply Forall_nil.
Defined.

(** ** F1 of a perfect ranking *)

Lemma perfect_top_k truevals predvals k j :
  same_shape truevals predvals ->
  Forall (fun t => binary t /\ num_positive t = k) truevals ->
  Forall2 perfectly_ranked truevals predvals ->
  (j < length truevals)%nat ->
  true_in_top_k (nth j truevals []) (nth j predvals []) k = INR k /\
  np_sum (hd [] truevals) = INR k.
Proof.
  intros Hshape Hlab Hrank Hj. split.
  - rewrite Forall_forall in Hlab.
    destruct (Hlab (nth j truevals [])) as [Hbin Hnum];
      [apply nth_In, Hj|].
    rewrite <- Hnum at 1 2. apply true_in_top_k_perfect.
    + exact Hbin.
    + apply same_shape_nth, Hshape.
    + apply Forall2_nth; assumption.
  - destruct truevals as [|t0 tv]; [simpl in Hj; lia|]. simpl.
    inversion Hlab as [|? ? [Hbin Hnum] _]; subst.
    apply np_sum_binary, Hbin.
Qed.

(** For a non-empty list of samples with binary ground truth, each
    perfectly ranked and each with exactly [k >= 1] positive labels,
    [scores_at_k] returns F1@k = 1. *)
Theorem f1_of_perfect_ranking truevals predvals k :
  truevals <> [] -> same_shape truevals predvals -> (1 <= k)%nat ->
  Forall (fun t => binary t /\ num_positive t = k) truevals ->
  Forall2 perfectly_ranked truevals predvals ->
  exists s, scores_at_k truevals predvals k = Ok s /\ f1score_at_k s = 1.
Proof.
  intros Hne Hshape Hk Hlab Hrank.
  assert (Hwf : well_formed truevals predvals k).
  { apply perfect_input_well_formed; auto.
    eapply Forall_impl; [|exact Hlab]. simpl. intros t [Hbin <-].
    repeat split; [exact Hbin | exact Hk | apply num_positive_le_length]. }
  assert (HINR : 0 < INR k) by (apply lt_0_INR; lia).
  eexists. split; [apply scores_at_k_closed_form, Hwf|]. simpl. f_equal.
  apply mean_of_ones; [exact Hne|]. intros j Hj.
  destruct (perfect_top_k _ _ _ j Hshape Hlab Hrank Hj) as [Htop Hfirst].
  unfold sample_f1, sample_precision, sample_recall.
  rewrite Htop, Hfirst.
  destruct (Rlt_dec 0 (INR k)) as [_ | Hn]; [|contradiction].
  field. lra.
Qed.

Lemma f1_of_perfect_ranking_witness :
  exists s, scores_at_k [[1; 0]; [0; 1]] [[0.9; 0.2]; [0.3; 0.4]] 1 = Ok s /\
            f1score_at_k s = 1.
Proof.
  apply (f1_of_perfect_ranking [[1; 0]; [0; 1]] [[0.9; 0.2]; [0.3; 0.4]] 1).
  - discriminate.
  - repeat constructor.
  - lia.
  - repeat (apply Forall_cons;
            [split; [solve_binary
                    | unfold num_positive; simpl; decide_reals; reflexivity]|]).
    apply Forall_nil.
  - constructor; [solve_perfectly_ranked|].
    constructor; [solve_perfectly_ranked | constructor].
Defined.

(** * Tag statistics *)

Lemma dict_get_count_tag t t' d :
  dict_get (count_tag t d) t'
  = if String.eqb t' t then Some (S (ntags_get d t)) else dict_get d t'.
Proof.
  unfold ntags_get. induction d as [|[u n] d IH]; simpl.
  - destruct (String.eqb t' t); reflexivity.
  - destruct (String.eqb_spec t u) as [-> | Htu]; simpl.
    + destruct (String.eqb_spec t' u); reflexivity.
    + rewrite IH. destruct (String.eqb_spec t' t) as [-> | Ht't].
      * destruct (String.eqb_spec t u); [contradiction | reflexivity].
      * reflexivity.
Qed.

Lemma keys_count_tag t d :
  map fst (count_tag t d)
  = if in_dec String.string_dec t (map fst d) then map fst d
    else map fst d ++ [t].
Proof.
  induction d as [|[u n] d IH]; simpl.
  - reflexivity.
  - destruct (String.eqb_spec t u) as [-> | Htu]; simpl.
    + destruct (String.string_dec u u); [reflexivity | contradiction].
    + rewrite IH. destruct (String.string_dec u t); [congruence|].
      destruct (in_dec String.string_dec t (map fst d)); reflexivity.
Qed.

Lemma keys_count_tag_NoDup t d :
  NoDup (map fst d) -> NoDup (map fst (count_tag t d)).
Proof.
  intros H. rewrite keys_count_tag.
  destruct (in_dec String.string_dec t (map fst d)) as [|Hnin]; [exact H|].
  apply NoDup_app; [exact H | repeat constructor; auto |].
  intros x Hx [<- | []]. contradiction.
Qed.

Lemma keys_count_tag_In t d u :
  In u (map fst (count_tag t d)) <-> u = t \/ In u (map fst d).
Proof.
  rewrite keys_count_tag.
  destruct (in_dec String.string_dec t (map fst d)) as [Hin | Hnin].
  - split; [auto|]. intros [-> | H]; assumption.
  - rewrite in_app_iff. simpl. intuition congruence.
Qed.

Lemma fold_left_concat {A B} (f : B -> A -> B) (ls : list (list A)) b :
  fold_left (fun b' l => fold_left f l b') ls b = fold_left f (concat ls) b.
Proof.
  revert b. induction ls as [|l ls IH]; intros b; simpl.
  - reflexivity.
  - rewrite fold_left_app. apply IH.
Qed.

Lemma counts_agree_step d l t :
  counts_agree d l -> counts_agree (count_tag t d) (l ++ [t]).
Proof.
  intros (Hnd & Hin & Hget). split; [|split].
  - apply keys_count_tag_NoDup, Hnd.
  - intros u. rewrite keys_count_tag_In, in_app_iff, Hin. simpl.
    intuition congruence.
  - intros u. rewrite dict_get_count_tag, count_occ_app. simpl.
    unfold ntags_get. rewrite Hget.
    destruct (String.eqb_spec u t) as [-> | Hne].
    + destruct (String.string_dec t t); [|contradiction].
      rewrite Nat.add_1_r.
      destruct (count_occ String.string_dec l t); reflexivity.
    + rewrite (Hget u).
      destruct (String.string_dec t u); [congruence|].
      rewrite Nat.add_0_r. reflexivity.
Qed.

Lemma counts_agree_fold l : forall d l0,
  counts_agree d l0 ->
  counts_agree (fold_left (fun d' t => count_tag t d') l d) (l0 ++ l).
Proof.
  induction l as [|t l IH]; intros d l0 H; simpl.
  - rewrite app_nil_r. exact H.
  - replace (l0 ++ t :: l) with ((l0 ++ [t]) ++ l)
      by (rewrite <- app_assoc; reflexivity).
    apply IH, counts_agree_step, H.
Qed.

Lemma ntags_counts_agree taglists :
  counts_agree (ntags taglists) (concat taglists).
Proof.
  unfold ntags. rewrite fold_left_concat.
  apply (counts_agree_fold (concat taglists) [] []).
  split; [constructor | split]; simpl; [tauto | reflexivity].
Qed.

(** After the counting loop [ntags] holds exactly the tags that occur in
    some tag list, each once, and [ntags[t]] is the number of occurrences
    of [t]. *)
Theorem ntags_counts_occurrences taglists t :
  NoDup (map fst (ntags taglists)) /\
  (dict_get (ntags taglists) t = None <-> ~ In t (concat taglists)) /\
  (forall n, dict_get (ntags taglists) t = Some n <->
             n = occurrences taglists t /\ In t (concat taglists)).
Proof.
  destruct (ntags_counts_agree taglists) as (Hnd & Hin & Hget).
  unfold occurrences. split; [exact Hnd|].
  pose proof (count_occ_In String.string_dec (concat taglists) t) as Hocc.
  pose proof (count_occ_not_In String.string_dec (concat taglists) t) as Hnocc.
  rewrite (Hget t).
  destruct (count_occ String.string_dec (concat taglists) t) as [|c] eqn:Hc.
  - split.
    + split; [intros _; apply Hnocc; reflexivity | reflexivity].
    + intros n. split; [discriminate|].
      intros [_ Hi]. apply Hocc in Hi. lia.
  - assert (Hi : In t (concat taglists)) by (apply Hocc; lia).
    split.
    + split; [discriminate | intros Hn; contradiction].
    + intros n. split.
      * intros H. inversion H. auto.
      * intros [-> _]. reflexivity.
Qed.

Section SortedRevNat.
Context {A : Type} (key : A -> nat).

Lemma insert_rev_nat_perm x l :
  Permutation (insert_rev_nat key x l) (x :: l).
Proof.
  induction l as [|y l IH]; simpl.
  - apply Permutation_refl.
  - destruct (key x <? key y)%nat.
    + rewrite IH. apply perm_swap.
    + apply Permutation_refl.
Qed.

Lemma sorted_rev_nat_perm l : Permutation (sorted_rev_nat key l) l.
Proof.
  induction l as [|x l IH]; simpl.
  - apply perm_nil.
  - rewrite insert_rev_nat_perm. apply perm_skip, IH.
Qed.

Lemma insert_rev_nat_sorted x l :
  StronglySorted (fun a b => (key b <= key a)%nat) l ->
  StronglySorted (fun a b => (key b <= key a)%nat) (insert_rev_nat key x l).
Proof.
  induction l as [|y l IH]; simpl; intros Hs.
  - constructor; constructor.
  - inversion Hs as [|? ? Hl Hy]; subst.
    destruct (Nat.ltb_spec (key x) (key y)) as [Hlt | Hge].
    + constructor; [apply IH, Hl|].
      rewrite Forall_forall. intros b Hb.
      eapply Permutation_in in Hb; [|apply insert_rev_nat_perm].
      destruct Hb as [<- | Hb]; [lia|].
      rewrite Forall_forall in Hy. apply Hy, Hb.
    + constructor; [exact Hs|].
      constructor; [lia|].
      rewrite Forall_forall in *. intros b Hb.
      specialize (Hy b Hb). lia.
Qed.

Lemma sorted_rev_nat_sorted l :
  StronglySorted (fun a b => (key b <= key a)%nat) (sorted_rev_nat key l).
Proof.
  induction l as [|x l IH]; simpl.
  - constructor.
  - apply insert_rev_nat_sorted, IH.
Qed.
End SortedRevNat.

Lemma ntags_get_occurrences taglists t :
  ntags_get (ntags taglists) t = occurrences taglists t.
Proof.
  destruct (ntags_counts_agree taglists) as (_ & _ & Hget).
  unfold ntags_get, occurrences. rewrite Hget.
  destruct (count_occ String.string_dec (concat taglists) t); reflexivity.
Qed.

Lemma ntagslist_sorted_facts taglists :
  NoDup (ntagslist_sorted taglists) /\
  (forall t, In t (ntagslist_sorted taglists) <-> In t (concat taglists)) /\
  StronglySorted
    (fun a b => (occurrences taglists b <= occurrences taglists a)%nat)
    (ntagslist_sorted taglists).
Proof.
  destruct (ntags_counts_agree taglists) as (Hnd & Hin & _).
  pose proof (sorted_rev_nat_perm (ntags_get (ntags taglists))
                (map fst (ntags taglists))) as Hperm.
  unfold ntagslist_sorted. split; [|split].
  - eapply Permutation_NoDup; [apply Permutation_sym, Hperm | exact Hnd].
  - intros t. rewrite <- Hin. split; apply Permutation_in;
      [exact Hperm | apply Permutation_sym, Hperm].
  - eapply StronglySorted_weaken; [|apply sorted_rev_nat_sorted].
    intros a b _ _. simpl. rewrite !ntags_get_occurrences. auto.
Qed.

(** [ntagslist_sorted] lists every tag that occurs in the data exactly
    once, in non-increasing order of its number of occurrences. *)
Theorem ntagslist_sorted_spec taglists :
  NoDup (ntagslist_sorted taglists) /\
  (forall t, In t (ntagslist_sorted taglists) <-> In t (concat taglists)) /\
  StronglySorted
    (fun a b => (occurrences taglists b <= occurrences taglists a)%nat)
    (ntagslist_sorted taglists).
Proof. exact (ntagslist_sorted_facts taglists). Qed.

Lemma list_index_Some t l i :
  list_index t l = Some i -> nth_error l i = Some t.
Proof.
  revert i. induction l as [|u l IH]; intros i; simpl; [discriminate|].
  destruct (String.eqb_spec u t) as [-> | Hne].
  - intros H. inversion H. reflexivity.
  - destruct (list_index t l) as [j|]; simpl; [|discriminate].
    intros H. inversion H. simpl. apply IH. reflexivity.
Qed.

Lemma list_index_In t l : In t l -> exists i, list_index t l = Some i.
Proof.
  induction l as [|u l IH]; simpl; [tauto|].
  intros Hin. destruct (String.eqb_spec u t) as [-> | Hne]; [eauto|].
  destruct Hin as [Heq | Hin]; [contradiction|].
  destruct (IH Hin) as [i ->]. simpl. eauto.
Qed.

Lemma list_index_not_In t l : ~ In t l -> list_index t l = None.
Proof.
  intros Hnin. destruct (list_index t l) as [i|] eqn:Hi; [|reflexivity].
  apply list_index_Some, nth_error_In in Hi. contradiction.
Qed.

Lemma tags_to_indices_found sorted x :
  incl x sorted ->
  exists il, tags_to_indices sorted x = Some il /\
             Forall2 (fun t i => nth_error sorted i = Some t) x il.
Proof.
  induction x as [|t x IH]; intros Hincl; simpl.
  - exists []. split; [reflexivity | constructor].
  - destruct (list_index_In t sorted) as [i Hi];
      [apply Hincl; left; reflexivity|].
    destruct IH as (il & Hil & Hall);
      [intros u Hu; apply Hincl; right; exact Hu|].
    rewrite Hi, Hil. simpl. exists (i :: il). split; [reflexivity|].
    constructor; [apply list_index_Some, Hi | exact Hall].
Qed.

Lemma tags_to_indices_missing sorted x t :
  In t x -> ~ In t sorted -> tags_to_indices sorted x = None.
Proof.
  induction x as [|u x IH]; simpl; [tauto|].
  intros [-> | Hin] Hnin.
  - rewrite list_index_not_In by exact Hnin. reflexivity.
  - destruct (list_index u sorted); [|reflexivity].
    rewrite IH by assumption. reflexivity.
Qed.

(** For the tag list of any talk of the data set [tags_to_indices] finds
    every tag: it returns one index per tag, and the tag at that index of
    [ntagslist_sorted] is the tag itself.  A list with a tag that occurs
    nowhere in the data set makes it fail with [ValueError]. *)
Theorem tags_to_indices_round_trip taglists :
  (forall x, In x taglists ->
     exists il, tags_to_indices (ntagslist_sorted taglists) x = Some il /\
       Forall2 (fun t i => nth_error (ntagslist_sorted taglists) i = Some t)
               x il) /\
  (forall x t, In t x -> ~ In t (concat taglists) ->
     tags_to_indices (ntagslist_sorted taglists) x = None).
Proof.
  destruct (ntagslist_sorted_facts taglists) as (_ & Hin & _). split.
  - intros x Hx. apply tags_to_indices_found.
    intros t Ht. apply Hin, in_concat. eauto.
  - intros x t Ht Hnin. apply (tags_to_indices_missing _ x t Ht).
    rewrite Hin. exact Hnin.
Qed.

Lemma tags_to_indices_round_trip_witness :
  (exists il,
     tags_to_indices
       (ntagslist_sorted [["ai"; "art"]; ["art"]; ["art"; "bees"; "ai"]]%string)
       ["art"; "bees"; "ai"]%string = Some il /\
     Forall2
       (fun t i =>
          nth_error
            (ntagslist_sorted [["ai"; "art"]; ["art"]; ["art"; "bees"; "ai"]]%string)
            i = Some t)
       ["art"; "bees"; "ai"]%string il) /\
  tags_to_indices
    (ntagslist_sorted [["ai"; "art"]; ["art"]; ["art"; "bees"; "ai"]]%string)
    ["art"; "cars"]%string = None.
Proof.
  pose proof (tags_to_indices_round_trip
                [["ai"; "art"]; ["art"]; ["art"; "bees"; "ai"]]%string)
    as [Hfound Hmissing].
  split.
  - apply Hfound. simpl. auto.
  - apply (Hmissing _ "cars"%string).
    + simpl. auto.
    + simpl. intros H.
      repeat (destruct H as [H | H]; [discriminate H|]). exact H.
Defined.

Lemma labels_one_iff (il : list nat) :
  exists labels,
    indices_to_labels il = Ok labels /\
    forall i, nth_error labels i = Some 1 <-> In i il /\ (i < NLABELS)%nat.
Proof.
  destruct (label_loop il (np_zeros NLABELS)) as (l & Hrun & Hlen & Hspec).
  { apply repeat_length. }
  exists l. split; [exact Hrun|]. intros i. split.
  - intros Hi. split.
    + destruct (Hspec i 1 Hi) as [[Hin _] | [_ Hz]]; [exact Hin|].
      apply nth_error_np_zeros in Hz. lra.
    + rewrite <- Hlen. apply nth_error_Some. congruence.
  - intros [Hin Hi]. destruct (nth_error l i) as [v|] eqn:Hv.
    + destruct (Hspec i v Hv) as [[_ ->] | [Hn _]]; [reflexivity | tauto].
    + apply nth_error_None in Hv. lia.
Qed.

Lemma Forall2_In_l {A B} (P : A -> B -> Prop) l l' a :
  Forall2 P l l' -> In a l -> exists b, In b l' /\ P a b.
Proof.
  induction 1 as [|x y l l' Hxy _ IH]; simpl; [tauto|].
  intros [<- | Hin]; [eauto|].
  destruct (IH Hin) as (b & Hb & HP). eauto.
Qed.

Lemma Forall2_In_r {A B} (P : A -> B -> Prop) l l' b :
  Forall2 P l l' -> In b l' -> exists a, In a l /\ P a b.
Proof.
  induction 1 as [|x y l l' Hxy _ IH]; simpl; [tauto|].
  intros [<- | Hin]; [eauto|].
  destruct (IH Hin) as (a & Ha & HP). eauto.
Qed.

(** The label vector of a talk of the data set, computed from its tags by
    [tags_to_indices] and [indices_to_labels], has a 1 at position [i]
    exactly when [i < NLABELS] and the tag at position [i] of
    [ntagslist_sorted] is one of the talk's tags. *)
Theorem talk_labels_mark_frequent_tags taglists x :
  In x taglists ->
  exists il labels,
    tags_to_indices (ntagslist_sorted taglists) x = Some il /\
    indices_to_labels il = Ok labels /\
    forall i, nth_error labels i = Some 1 <->
              (i < NLABELS)%nat /\
              exists t, In t x /\
                        nth_error (ntagslist_sorted taglists) i = Some t.
Proof.
  intros Hx.
  destruct (ntagslist_sorted_facts taglists) as (Hnd & Hin & _).
  destruct (tags_to_indices_found (ntagslist_sorted taglists) x)
    as (il & Hil & Hall).
  { intros t Ht. apply Hin, in_concat. eauto. }
  destruct (labels_one_iff il) as (labels & Hlab & Hone).
  exists il, labels. split; [exact Hil|]. split; [exact Hlab|].
  intros i. rewrite Hone. split.
  - intros [Hi Hlt]. split; [exact Hlt|].
    destruct (Forall2_In_r _ _ _ i Hall Hi) as (t & Ht & Hnth). eauto.
  - intros [Hlt (t & Ht & Hnth)]. split; [|exact Hlt].
    destruct (Forall2_In_l _ _ _ t Hall Ht) as (i' & Hi' & Hnth').
    assert (i = i').
    { apply (proj1 (NoDup_nth_error (ntagslist_sorted taglists)) Hnd).
      - apply nth_error_Some. congruence.
      - congruence. }
    subst i'. exact Hi'.
Qed.

Lemma talk_labels_mark_frequent_tags_witness :
  exists il labels,
    tags_to_indices
      (ntagslist_sorted [["ai"; "art"]; ["art"]; ["art"; "bees"; "ai"]]%string)
      ["ai"; "art"]%string = Some il /\
    indices_to_labels il = Ok labels /\
    forall i, nth_error labels i = Some 1 <->
              (i < NLABELS)%nat /\
              exists t, In t ["ai"; "art"]%string /\
                nth_error
                  (ntagslist_sorted
                     [["ai"; "art"]; ["art"]; ["art"; "bees"; "ai"]]%string)
                  i = Some t.
Proof.
  apply (talk_labels_mark_frequent_tags
           [["ai"; "art"]; ["art"]; ["art"; "bees"; "ai"]]%string
           ["ai"; "art"]%string).
  simpl. auto.
Defined.

(** * Label vectors as ground truth of the ranking metrics *)

Lemma labels_facts il labels :
  indices_to_labels il = Ok labels ->
  length labels = NLABELS /\ binary labels /\
  (In 1 labels <-> exists i, In i il /\ (i < NLABELS)%nat).
Proof.
  intros Hrun.
  destruct (label_loop il (np_zeros NLABELS)) as (l & Hrun' & Hlen & Hspec).
  { apply repeat_length. }
  unfold indices_to_labels in Hrun. rewrite Hrun' in Hrun.
  inversion Hrun; subst l; clear Hrun.
  destruct (labels_one_iff il) as (l' & Hrun'' & Hone).
  unfold indices_to_labels in Hrun''. rewrite Hrun' in Hrun''.
  inversion Hrun''; subst l'; clear Hrun''.
  split; [exact Hlen|]. split.
  - apply Forall_forall. intros v Hin.
    apply In_nth_error in Hin. destruct Hin as [i Hi].
    destruct (Hspec i v Hi) as [[_ ->] | [_ Hz]]; [right; reflexivity|].
    left. eapply nth_error_np_zeros, Hz.
  - split.
    + intros Hin. apply In_nth_error in Hin. destruct Hin as [i Hi].
      exists i. apply Hone, Hi.
    + intros (i & Hi). apply Hone in Hi. eapply nth_error_In, Hi.
Qed.

Lemma np_sum_ge_member t :
  Forall (fun x => 0 <= x) t -> In 1 t -> 1 <= np_sum t.
Proof.
  induction 1 as [|x t Hx Ht IH]; simpl; [tauto|].
  rewrite np_sum_cons. intros [-> | Hin].
  - pose proof (np_sum_nonneg t Ht). lra.
  - specialize (IH Hin). lra.
Qed.

Lemma np_sum_all_zero t : binary t -> ~ In 1 t -> np_sum t = 0.
Proof.
  induction 1 as [|x t Hx Ht IH]; intros Hnin.
  - reflexivity.
  - rewrite np_sum_cons, IH by (intros H; apply Hnin; right; exact H).
    destruct Hx as [-> | ->]; [lra|].
    exfalso. apply Hnin. left. reflexivity.
Qed.

Lemma same_shape_indexable truevals predvals k :
  same_shape truevals predvals ->
  Forall (fun t => (k <= length t)%nat) truevals ->
  indexable truevals predvals k.
Proof.
  intros Hshape Hlen j Hj.
  rewrite <- (same_shape_length _ _ Hshape). split; [exact Hj|].
  rewrite length_combine, <- (same_shape_nth _ _ j Hshape).
  rewrite Forall_forall in Hlen.
  pose proof (Hlen (nth j truevals []) (nth_In _ _ Hj)). lia.
Qed.

(** [scores_at_k] applied to label vectors made by [indices_to_labels],
    with predictions of the same shape and [1 <= k <= NLABELS], returns
    four scores.  They are numbers when the first talk has a tag index
    below [NLABELS]; when it has none, the recall denominator
    [np.sum(truevals[0])] is zero and the recall returned is not a
    number. *)
Theorem scores_at_k_on_label_vectors x0 xs t0 truevals p0 predvals k :
  indices_to_labels x0 = Ok t0 ->
  Forall2 (fun x t => indices_to_labels x = Ok t) xs truevals ->
  same_shape (t0 :: truevals) (p0 :: predvals) ->
  (1 <= k <= NLABELS)%nat ->
  ((exists i, In i x0 /\ (i < NLABELS)%nat) ->
     exists s, scores_at_k (t0 :: truevals) (p0 :: predvals) k = Ok s /\
               finite_scores s) /\
  ((forall i, In i x0 -> (NLABELS <= i)%nat) ->
     exists s, scores_at_k (t0 :: truevals) (p0 :: predvals) k = Ok s /\
               recall_at_k s = NanInf).
Proof.
  intros H0 Hall Hshape Hk.
  destruct (labels_facts x0 t0 H0) as (Hlen0 & Hbin0 & Hone0).
  assert (Hlabs : Forall (fun t => length t = NLABELS /\ binary t)
                         (t0 :: truevals)).
  { constructor; [auto|].
    clear - Hall. induction Hall as [|x t xs tv Hxt _ IH]; constructor; auto.
    destruct (labels_facts x t Hxt) as (? & ? & _). auto. }
  split.
  - intros Hex. eexists. split.
    + apply scores_at_k_closed_form. constructor.
      * discriminate.
      * exact Hshape.
      * lia.
      * eapply Forall_impl; [|exact Hlabs]. simpl. intros t [Hl Hb].
        split; [lia | apply binary_nonneg, Hb].
      * simpl. apply Hone0 in Hex.
        pose proof (np_sum_ge_member t0 (binary_nonneg t0 Hbin0) Hex). lra.
    + repeat split; apply finite_Fin.
  - intros Hnone.
    assert (Hzero : np_sum t0 = 0).
    { apply np_sum_all_zero; [exact Hbin0|]. intros Hin.
      apply Hone0 in Hin. destruct Hin as (i & Hi & Hlt).
      specialize (Hnone i Hi). lia. }
    eexists. split.
    + apply scores_at_k_general; [discriminate | lia |].
      apply same_shape_indexable; [exact Hshape|].
      eapply Forall_impl; [|exact Hlabs]. simpl. intros t [Hl _]. lia.
    + cbn [recall_at_k hd]. unfold np_sum_over_samples.
      rewrite (np_sum_upto_absorbs _ _ 0%nat); [reflexivity | simpl; lia |].
      unfold np_sample_recall. cbn [nth]. rewrite Hzero.
      apply np_div_zero.
Qed.

Lemma scores_at_k_on_label_vectors_witness :
  (exists s, scores_at_k [repeat 0 2 ++ [1] ++ repeat 0 97]
                          [repeat 0.5 100] 5 = Ok s /\ finite_scores s) /\
  (exists s, scores_at_k [repeat 0 100] [repeat 0.5 100] 5 = Ok s /\
             recall_at_k s = NanInf).
Proof.
  split.
  - apply (proj1 (scores_at_k_on_label_vectors
                    [2%nat; 300%nat] [] (repeat 0 2 ++ [1] ++ repeat 0 97) []
                    (repeat 0.5 100) [] 5
                    eq_refl (Forall2_nil _)
                    ltac:(repeat constructor)
                    ltac:(unfold NLABELS; lia))).
    exists 2%nat. split; [simpl; auto | unfold NLABELS; lia].
  - apply (proj2 (scores_at_k_on_label_vectors
                    [300%nat] [] (repeat 0 100) []
                    (repeat 0.5 100) [] 5
                    eq_refl (Forall2_nil _)
                    ltac:(repeat constructor)
                    ltac:(unfold NLABELS; lia))).
    intros i [<- | []]. unfold NLABELS. lia.
Defined.

(** * The embedding matrix *)

Lemma broadcast_row_same dim v :
  length v = dim -> broadcast_row dim v = Ok v.
Proof.
  intros H. unfold broadcast_row.
  destruct (Nat.eqb_spec (length v) dim); [reflexivity | contradiction].
Qed.

Lemma embedding_step_store dim emb w i v (m0 : list (list R)) :
  (i < MAX_NUM_WORDS)%nat -> dict_get emb w = Some v -> length v = dim ->
  embedding_step dim emb (w, i) m0
  = (if (i <? length m0)%nat then setitem m0 i v else Raise IndexError).
Proof.
  intros Hi Hget Hlen. unfold embedding_step. simpl fst. simpl snd.
  destruct (Nat.leb_spec MAX_NUM_WORDS i); [lia|]. rewrite Hget.
  destruct (Nat.ltb_spec i (length m0)) as [Hlt | Hge].
  - rewrite (getitem_ok m0 i []) by exact Hlt. simpl bind.
    rewrite broadcast_row_same by exact Hlen. reflexivity.
  - rewrite getitem_raise by exact Hge. reflexivity.
Qed.

Lemma embedding_loop dim emb (l : dict nat) : forall m0 : list (list R),
  vectors_of_dim emb dim ->
  NoDup (map snd l) ->
  (forall w i, In (w, i) l -> (i < MAX_NUM_WORDS)%nat ->
               (i < length m0)%nat) ->
  exists m,
    for_each l (embedding_step dim emb) m0 = Ok m /\
    length m = length m0 /\
    (forall w i v, In (w, i) l -> (i < MAX_NUM_WORDS)%nat ->
                   dict_get emb w = Some v -> nth_error m i = Some v) /\
    (forall i, (forall w v, In (w, i) l -> (i < MAX_NUM_WORDS)%nat ->
                            dict_get emb w = Some v -> False) ->
               nth_error m i = nth_error m0 i).
Proof.
  induction l as [|[w0 i0] l IH]; intros m0 Hdim Hnd Hrange.
  - exists m0. simpl. repeat split; auto. intros w i v [].
  - simpl in Hnd. inversion Hnd as [|? ? Hnin Hnd']; subst.
    assert (Hstep : exists m1,
              embedding_step dim emb (w0, i0) m0 = Ok m1 /\
              length m1 = length m0 /\
              (forall v, (i0 < MAX_NUM_WORDS)%nat ->
                         dict_get emb w0 = Some v ->
                         nth_error m1 i0 = Some v) /\
              (forall i, (i <> i0 \/ (MAX_NUM_WORDS <= i0)%nat \/
                          dict_get emb w0 = None) ->
                         nth_error m1 i = nth_error m0 i)).
    { destruct (Nat.le_gt_cases MAX_NUM_WORDS i0) as [Hge | Hlt].
      - exists m0. unfold embedding_step. simpl snd.
        destruct (Nat.leb_spec MAX_NUM_WORDS i0); [|lia].
        repeat split; auto. intros; lia.
      - destruct (dict_get emb w0) as [v0|] eqn:Hget.
        + assert (Hin0 : (i0 < length m0)%nat)
            by (apply (Hrange w0 i0); [left; reflexivity | exact Hlt]).
          destruct (setitem_in_range m0 i0 v0 Hin0)
            as (m1 & Hset & Hlen & Hnth & Hother).
          exists m1.
          rewrite (embedding_step_store dim emb w0 i0 v0 m0 Hlt Hget
                     (Hdim w0 v0 Hget)).
          destruct (Nat.ltb_spec i0 (length m0)); [|lia].
          repeat split; auto.
          * intros v _ Hv. inversion Hv; subst. exact Hnth.
          * intros i [Hne | [Hge | Hnone]];
              [apply Hother, Hne | lia | discriminate].
        + exists m0. unfold embedding_step. simpl fst. simpl snd.
          destruct (Nat.leb_spec MAX_NUM_WORDS i0); [lia|]. rewrite Hget.
          repeat split; auto. discriminate. }
    destruct Hstep as (m1 & Hrun1 & Hlen1 & Hhit1 & Hkeep1).
    destruct (IH m1 Hdim Hnd') as (m & Hrun & Hlen & Hhit & Hkeep).
    { intros w i Hin Hlt. rewrite Hlen1. apply (Hrange w i); [right|]; auto. }
    exists m. simpl. rewrite Hrun1. simpl bind.
    split; [exact Hrun|]. split; [congruence|]. split.
    + intros w i v [Heq | Hin] Hlt Hget.
      * inversion Heq; subst.
        rewrite Hkeep; [apply Hhit1; assumption|].
        intros w' v' Hin' _ _. apply Hnin.
        apply (in_map snd) in Hin'. exact Hin'.
      * apply (Hhit w i v); assumption.
    + intros i Hnone. rewrite Hkeep.
      * apply Hkeep1.
        destruct (Nat.eq_dec i i0) as [-> | Hne]; [|left; exact Hne].
        right. destruct (Nat.leb_spec MAX_NUM_WORDS i0) as [|Hlt];
          [left; assumption|].
        right. destruct (dict_get emb w0) as [v0|] eqn:Hget; [|reflexivity].
        exfalso. apply (Hnone w0 v0); simpl; auto.
      * intros w v Hin. apply (Hnone w v). right. exact Hin.
Qed.

(** When every vector of [embeddings_index] has [embedding_dim] entries
    and the indices of [word_index] are distinct and none exceeds
    [len(word_index)] (as for a tokenizer's word index, which numbers the
    words from 1), the embedding matrix is built without an error, has
    [min(MAX_NUM_WORDS, len(word_index) + 1)] rows, holds in row [i] the
    embedding of the word with index [i < MAX_NUM_WORDS] when it has one,
    and has the zero vector in every other row. *)
Theorem embedding_matrix_rows word_index embeddings_index embedding_dim :
  vectors_of_dim embeddings_index embedding_dim ->
  NoDup (map snd word_index) ->
  (forall w i, In (w, i) word_index -> (i <= length word_index)%nat) ->
  exists m,
    embedding_matrix word_index embeddings_index embedding_dim = Ok m /\
    length m = Nat.min MAX_NUM_WORDS (length word_index + 1) /\
    (forall w i v, In (w, i) word_index -> (i < MAX_NUM_WORDS)%nat ->
                   dict_get embeddings_index w = Some v ->
                   nth_error m i = Some v) /\
    (forall i, (i < length m)%nat ->
               (forall w v, In (w, i) word_index ->
                            dict_get embeddings_index w = Some v -> False) ->
               nth_error m i = Some (np_zeros embedding_dim)).
Proof.
  intros Hdim Hnd Hrange. unfold embedding_matrix.
  destruct (embedding_loop embedding_dim embeddings_index word_index
              (repeat (np_zeros embedding_dim) (num_words word_index))
              Hdim Hnd)
    as (m & Hrun & Hlen & Hhit & Hkeep).
  { intros w i Hin Hlt. rewrite repeat_length. unfold num_words.
    specialize (Hrange w i Hin). lia. }
  rewrite repeat_length in Hlen.
  exists m. split; [exact Hrun|]. split; [exact Hlen|]. split; [exact Hhit|].
  intros i Hi Hnone. rewrite Hkeep.
  - rewrite Hlen in Hi. apply nth_error_repeat. exact Hi.
  - intros w v Hin _ Hget. apply (Hnone w v); assumption.
Qed.

Ltac solve_vectors_of_dim :=
  intros w v; simpl;
  repeat match goal with
         | |- context [String.eqb ?a ?b] => destruct (String.eqb a b)
         end;
  intros Hv; inversion Hv; reflexivity.

Lemma embedding_matrix_rows_witness :
  exists m,
    embedding_matrix [("the", 1); ("talk", 2); ("xyzzy", 3)]%string%nat
      [("talk", [0.5; 0.25]); ("the", [1; 2])]%string 2 = Ok m /\
    nth_error m 0 = Some [0; 0] /\
    nth_error m 1 = Some [1; 2] /\
    nth_error m 2 = Some [0.5; 0.25] /\
    nth_error m 3 = Some [0; 0].
Proof.
  destruct (embedding_matrix_rows
              [("the", 1); ("talk", 2); ("xyzzy", 3)]%string%nat
              [("talk", [0.5; 0.25]); ("the", [1; 2])]%string 2)
    as (m & Hrun & Hlen & Hhit & Hzero).
  - solve_vectors_of_dim.
  - simpl. repeat constructor; simpl; intuition discriminate.
  - intros w i Hin. simpl in Hin.
    repeat (destruct Hin as [Hin | Hin]; [inversion Hin; simpl; lia|]).
    contradiction.
  - assert (Hlen4 : length m = 4%nat) by (rewrite Hlen; reflexivity).
    assert (Hmax : forall i, (i <= 3)%nat -> (i < MAX_NUM_WORDS)%nat).
    { intros i Hi. apply Nat.ltb_lt.
      do 4 (destruct i as [|i]; [reflexivity|]). lia. }
    exists m. split; [exact Hrun|]. split; [|split; [|split]].
    + apply Hzero; [lia|]. intros w v Hin. simpl in Hin.
      repeat (destruct Hin as [Hin | Hin]; [discriminate Hin|]).
      contradiction.
    + apply (Hhit "the"%string); [simpl; auto | apply Hmax; lia | reflexivity].
    + apply (Hhit "talk"%string); [simpl; auto | apply Hmax; lia | reflexivity].
    + apply Hzero; [lia|]. intros w v Hin. simpl in Hin.
      destruct Hin as [Hin | [Hin | [Hin | []]]]; inversion Hin; subst.
      discriminate.
Defined.

Lemma set_nth_out_of_range {A} (l : list A) i v :
  (length l <= i)%nat -> set_nth l i v = None.
Proof.
  revert i; induction l as [|x l IH]; intros i Hi; simpl.
  - reflexivity.
  - destruct i as [|i]; simpl in Hi; [lia|].
    rewrite IH by lia. reflexivity.
Qed.

Lemma embedding_step_outcome dim emb item (m0 : list (list R)) :
  vectors_of_dim emb dim ->
  (exists m1, embedding_step dim emb item m0 = Ok m1 /\
              length m1 = length m0) \/
  embedding_step dim emb item m0 = Raise IndexError.
Proof.
  intros Hdim. destruct item as [w i].
  destruct (Nat.le_gt_cases MAX_NUM_WORDS i) as [Hge | Hlt].
  - left. exists m0. unfold embedding_step. simpl snd.
    destruct (Nat.leb_spec MAX_NUM_WORDS i); [auto | lia].
  - destruct (dict_get emb w) as [v|] eqn:Hget.
    + rewrite (embedding_step_store dim emb w i v m0 Hlt Hget
                 (Hdim w v Hget)).
      destruct (Nat.ltb_spec i (length m0)) as [Hin | Hout];
        [|right; reflexivity].
      destruct (setitem_in_range m0 i v Hin) as (m1 & Hset & Hlen & _).
      eauto.
    + left. exists m0. unfold embedding_step. simpl fst. simpl snd.
      destruct (Nat.leb_spec MAX_NUM_WORDS i); [lia|]. rewrite Hget. auto.
Qed.

Lemma embedding_loop_index_error dim emb (l : dict nat) :
  vectors_of_dim emb dim ->
  forall (m0 : list (list R)) w i v,
    In (w, i) l -> (length m0 <= i < MAX_NUM_WORDS)%nat ->
    dict_get emb w = Some v ->
    for_each l (embedding_step dim emb) m0 = Raise IndexError.
Proof.
  intros Hdim.
  induction l as [|item l IH]; intros m0 w i v Hin Hi Hget; [destruct Hin|].
  simpl. destruct Hin as [-> | Hin].
  - rewrite (embedding_step_store dim emb w i v m0 (proj2 Hi) Hget
               (Hdim w v Hget)).
    destruct (Nat.ltb_spec i (length m0)); [lia | reflexivity].
  - destruct (embedding_step_outcome dim emb item m0 Hdim)
      as [(m1 & -> & Hlen) | ->]; [|reflexivity].
    simpl. apply (IH m1 w i v Hin); [lia | exact Hget].
Qed.

(** When every vector of [embeddings_index] has [embedding_dim] entries
    and some word with an embedding has an index below [MAX_NUM_WORDS]
    that is not a row of the matrix (it exceeds [len(word_index)]), the
    assignment to that row is out of bounds and building the matrix raises
    [IndexError]. *)
Theorem embedding_matrix_index_error word_index embeddings_index
    embedding_dim w i v :
  vectors_of_dim embeddings_index embedding_dim ->
  In (w, i) word_index ->
  (length word_index < i < MAX_NUM_WORDS)%nat ->
  dict_get embeddings_index w = Some v ->
  embedding_matrix word_index embeddings_index embedding_dim
  = Raise IndexError.
Proof.
  intros Hdim Hin Hi Hget. unfold embedding_matrix.
  apply (embedding_loop_index_error _ _ _ Hdim _ w i v Hin); [|exact Hget].
  rewrite repeat_length. unfold num_words. lia.
Qed.

Lemma embedding_matrix_index_error_witness :
  embedding_matrix [("the", 1); ("talk", 7)]%string%nat
    [("talk", [0.5; 0.25])]%string 2 = Raise IndexError.
Proof.
  apply (embedding_matrix_index_error _ _ _ "talk"%string 7%nat [0.5; 0.25]).
  - solve_vectors_of_dim.
  - simpl. auto.
  - split; [simpl; lia|]. apply Nat.ltb_lt. reflexivity.
  - reflexivity.
Defined.

(** * Label counts at a threshold *)

Lemma count_above_binary t :
  binary t -> count_above 0.5 t = num_positive t.
Proof.
  unfold count_above, num_positive. induction 1 as [|x t Hx Ht IH].
  - reflexivity.
  - simpl. destruct Hx as [-> | ->].
    + destruct (Rlt_dec 0.5 0); [lra|].
      destruct (Req_dec_T 0 1); [lra | exact IH].
    + destruct (Rlt_dec 0.5 1); [|lra].
      destruct (Req_dec_T 1 1); [|lra]. simpl. f_equal. exact IH.
Qed.

Lemma label_count_loop y_val predictions n :
  (n <= length y_val)%nat -> (n <= length predictions)%nat ->
  exists a b,
    for_range n
      (fun t acc =>
         yt <- getitem y_val t ;;
         pt <- getitem predictions t ;;
         Ok ((fst acc + count_above 0.5 yt)%nat,
             (snd acc + count_above threshold pt)%nat))
      (0%nat, 0%nat) = Ok (a, b) /\
    INR a = sum_upto (fun t => INR (count_above 0.5 (nth t y_val []))) n.
Proof.
  intros Hy Hp. induction n as [|n IH].
  - exists 0%nat, 0%nat. split; reflexivity.
  - destruct IH as (a & b & Hrun & Ha); [lia | lia|].
    rewrite for_range_S, Hrun. simpl bind.
    rewrite (getitem_ok y_val n []) by lia. simpl bind.
    rewrite (getitem_ok predictions n []) by lia. simpl bind.
    eexists. eexists. split; [reflexivity|].
    simpl fst. rewrite plus_INR, Ha. reflexivity.
Qed.

(** The averages of the label counts: with at least one talk, a prediction
    row for each talk and binary ground truth, [avg_n_gt] is the mean over
    the talks of the sum of the label vector; with no talk the division by
    [len(y_val)] raises [ZeroDivisionError]; with fewer prediction rows than
    talks the loop raises [IndexError]. *)
Theorem average_label_counts_spec y_val predictions :
  (y_val <> [] -> (length y_val <= length predictions)%nat ->
   Forall binary y_val ->
   exists avg_n_gt avg_n_pred,
     average_label_counts y_val predictions = Ok (avg_n_gt, avg_n_pred) /\
     avg_n_gt = mean_over_samples (fun t _ => np_sum t) y_val predictions /\
     0 <= avg_n_pred) /\
  (y_val = [] ->
   average_label_counts y_val predictions = Raise ZeroDivisionError) /\
  ((length predictions < length y_val)%nat ->
   average_label_counts y_val predictions = Raise IndexError).
Proof.
  split; [|split].
  - intros Hne Hlen Hbin.
    destruct (label_count_loop y_val predictions (length y_val) (le_n _) Hlen)
      as (a & b & Hrun & Ha).
    assert (HINR : 0 < INR (length y_val)).
    { apply lt_0_INR. destruct y_val; [congruence | simpl; lia]. }
    unfold average_label_counts. rewrite Hrun. simpl bind.
    rewrite !div_ok by lra. simpl bind.
    eexists. eexists. split; [reflexivity|]. split.
    + unfold mean_over_samples, sum_over_samples. rewrite Ha. f_equal.
      apply sum_upto_ext. intros j Hj.
      rewrite Forall_forall in Hbin.
      assert (Hb : binary (nth j y_val [])) by (apply Hbin, nth_In, Hj).
      rewrite count_above_binary, np_sum_binary by exact Hb. reflexivity.
    + apply Rmult_le_pos; [apply pos_INR|].
      left. apply Rinv_0_lt_compat, HINR.
  - intros ->. unfold average_label_counts, for_range. simpl.
    rewrite div_zero. reflexivity.
  - intros Hlt.
    destruct (label_count_loop y_val predictions (length predictions))
      as (a & b & Hrun & _); [lia | lia|].
    unfold average_label_counts.
    erewrite for_range_raise; [reflexivity | exact Hlt | exact Hrun |].
    simpl. rewrite (getitem_ok y_val _ []) by lia. simpl bind.
    rewrite getitem_raise by lia. reflexivity.
Qed.

Lemma average_label_counts_spec_witness :
  (exists avg_n_gt avg_n_pred,
     average_label_counts [[1; 0; 1]; [0; 0; 1]] [[0.9; 0.2; 0.4]; [0.1; 0.7; 0.6]]
     = Ok (avg_n_gt, avg_n_pred) /\
     avg_n_gt = mean_over_samples (fun t _ => np_sum t)
                  [[1; 0; 1]; [0; 0; 1]] [[0.9; 0.2; 0.4]; [0.1; 0.7; 0.6]] /\
     0 <= avg_n_pred) /\
  average_label_counts [] [[0.9]] = Raise ZeroDivisionError /\
  average_label_counts [[1; 0]; [0; 1]] [[0.9; 0.2]] = Raise IndexError.
Proof.
  split; [|split].
  - apply (proj1 (average_label_counts_spec
                    [[1; 0; 1]; [0; 0; 1]]
                    [[0.9; 0.2; 0.4]; [0.1; 0.7; 0.6]])).
    + discriminate.
    + simpl. lia.
    + repeat (apply Forall_cons; [solve_binary|]). apply Forall_nil.
  - apply (proj1 (proj2 (average_label_counts_spec [] [[0.9]]))).
    reflexivity.
  - apply (proj2 (proj2 (average_label_counts_spec
                           [[1; 0]; [0; 1]] [[0.9; 0.2]]))).
    simpl. lia.
Defined.

(** * Shuffling and splitting keep the rows and their labels together *)

Lemma take_loop {A} (a : list A) d indices : forall rows,
  Forall (fun i => (i < length a)%nat) indices ->
  for_each indices (fun i rows' => x <- getitem a i ;; Ok (rows' ++ [x])) rows
  = Ok (rows ++ map (fun i => nth i a d) indices).
Proof.
  induction indices as [|i indices IH]; intros rows Hall; simpl.
  - rewrite app_nil_r. reflexivity.
  - inversion Hall as [|? ? Hi Hrest]; subst.
    rewrite (getitem_ok a i d Hi). simpl bind.
    rewrite IH by exact Hrest. rewrite <- app_assoc. reflexivity.
Qed.

Lemma take_map {A} (a : list A) d indices :
  Forall (fun i => (i < length a)%nat) indices ->
  take a indices = Ok (map (fun i => nth i a d) indices).
Proof. intros H. unfold take. rewrite (take_loop a d indices [] H). reflexivity. Qed.

Lemma map_nth_seq {A} (a : list A) d :
  map (fun i => nth i a d) (seq 0 (length a)) = a.
Proof.
  apply (nth_ext _ _ d d).
  - rewrite length_map, length_seq. reflexivity.
  - intros n Hn. rewrite length_map, length_seq in Hn.
    rewrite (nth_indep _ d (nth 0 a d))
      by (rewrite length_map, length_seq; exact Hn).
    rewrite (map_nth (fun i => nth i a d) (seq 0 (length a)) 0%nat n).
    rewrite seq_nth by exact Hn. reflexivity.
Qed.

Lemma shuffled_indices_in_range n indices :
  Permutation indices (seq 0 n) -> Forall (fun i => (i < n)%nat) indices.
Proof.
  intros Hperm. apply Forall_forall. intros i Hi.
  eapply Permutation_in in Hi; [|exact Hperm]. apply in_seq in Hi. lia.
Qed.

Lemma skipn_combine {A B} n (l : list A) (l' : list B) :
  skipn n (combine l l') = combine (skipn n l) (skipn n l').
Proof.
  revert l l'. induction n as [|n IH]; intros l l'; [reflexivity|].
  destruct l as [|x l]; [reflexivity|].
  destruct l' as [|y l']; simpl.
  - destruct (skipn n l); reflexivity.
  - apply IH.
Qed.

Lemma map_nth_combine {A B} (a : list A) (b : list B) da db indices :
  length a = length b ->
  map (fun i => nth i (combine a b) (da, db)) indices
  = combine (map (fun i => nth i a da) indices)
            (map (fun i => nth i b db) indices).
Proof.
  intros Hlen. induction indices as [|i indices IH]; [reflexivity|].
  simpl. rewrite IH. f_equal. apply combine_nth. exact Hlen.
Qed.

(** When [indices] is a rearrangement of [0 .. n-1] for [n] rows of data
    with [n] labels, shuffling and splitting never fails, every training
    and validation row keeps its own label, and the training pairs followed
    by the validation pairs are a rearrangement of the original (row,
    label) pairs: no row is lost or duplicated. *)
Theorem shuffle_and_split_keeps_pairs {A B} (data : list A) (labels : list B)
    indices :
  length data = length labels ->
  Permutation indices (seq 0 (length data)) ->
  exists xt yt xv yv,
    shuffle_and_split data labels indices = Ok ((xt, yt), (xv, yv)) /\
    length xt = length yt /\ length xv = length yv /\
    Permutation (combine xt yt ++ combine xv yv) (combine data labels).
Proof.
  intros Hlen Hperm.
  pose proof (shuffled_indices_in_range _ _ Hperm) as Hrange.
  destruct data as [|a0 data'] eqn:Hdata.
  - destruct labels; [|discriminate].
    simpl in Hperm. apply Permutation_sym, Permutation_nil in Hperm.
    subst indices.
    exists [], [], [], []. repeat split; constructor.
  - destruct labels as [|b0 labels'] eqn:Hlabels; [discriminate|].
    rewrite <- Hdata, <- Hlabels in *. clear Hdata Hlabels data' labels'.
    unfold shuffle_and_split.
    rewrite (take_map data a0 indices Hrange). simpl bind.
    rewrite (take_map labels b0 indices)
      by (rewrite <- Hlen; exact Hrange).
    simpl bind.
    set (data1 := map (fun i => nth i data a0) indices).
    set (labels1 := map (fun i => nth i labels b0) indices).
    assert (Hlen1 : length data1 = length labels1)
      by (unfold data1, labels1; rewrite !length_map; reflexivity).
    exists (x_train data1), (x_train labels1), (x_val data1), (x_val labels1).
    split; [reflexivity|].
    unfold x_train, x_val, slice_to, slice_from. rewrite <- Hlen1.
    set (c := slice_index (length data1)
                (- num_validation_samples (length data1))).
    split; [rewrite !length_firstn; lia|].
    split; [rewrite !length_skipn; lia|].
    rewrite <- combine_firstn, <- skipn_combine, firstn_skipn.
    unfold data1, labels1.
    rewrite <- (map_nth_combine data labels a0 b0 indices Hlen).
    rewrite Hperm.
    replace (length data) with (length (combine data labels))
      by (rewrite length_combine; lia).
    rewrite map_nth_seq. apply Permutation_refl.
Qed.

Lemma shuffle_and_split_keeps_pairs_witness :
  exists xt yt xv yv,
    shuffle_and_split [10; 20; 30; 40; 50; 60]%nat [1; 2; 3; 4; 5; 6]%nat
                      [3; 0; 5; 1; 4; 2]%nat = Ok ((xt, yt), (xv, yv)) /\
    length xt = length yt /\ length xv = length yv /\
    Permutation (combine xt yt ++ combine xv yv)
      (combine [10; 20; 30; 40; 50; 60]%nat [1; 2; 3; 4; 5; 6]%nat).
Proof.
  apply (shuffle_and_split_keeps_pairs
           [10; 20; 30; 40; 50; 60]%nat [1; 2; 3; 4; 5; 6]%nat
           [3; 0; 5; 1; 4; 2]%nat).
  - reflexivity.
  - simpl.
    apply (Permutation_trans (l' := [0; 3; 5; 1; 4; 2]%nat));
      [apply perm_swap|]. apply perm_skip.
    apply (Permutation_trans (l' := [3; 1; 5; 4; 2]%nat));
      [apply perm_skip, perm_swap|].
    apply (Permutation_trans (l' := [1; 3; 5; 4; 2]%nat));
      [apply perm_swap|]. apply perm_skip.
    apply (Permutation_trans (l' := [3; 5; 2; 4]%nat));
      [do 2 apply perm_skip; apply perm_swap|].
    apply (Permutation_trans (l' := [3; 2; 5; 4]%nat));
      [apply perm_skip, perm_swap|].
    apply (Permutation_trans (l' := [2; 3; 5; 4]%nat));
      [apply perm_swap|]. do 2 apply perm_skip. apply perm_swap.
Defined.

(** * Ties between scores *)

Lemma insert_rev_front {A} (key : A -> R) x l :
  (forall y, In y l -> key y = key x) -> insert_rev key x l = x :: l.
Proof.
  intros H. destruct l as [|y l]; [reflexivity|].
  simpl. destruct (Rlt_dec (key x) (key y)) as [Hlt|]; [|reflexivity].
  rewrite (H y) in Hlt by (left; reflexivity). lra.
Qed.

Lemma sorted_rev_ties {A} (key : A -> R) l :
  (forall x y, In x l -> In y l -> key x = key y) -> sorted_rev key l = l.
Proof.
  induction l as [|x l IH]; intros H; [reflexivity|].
  simpl. rewrite IH by (intros; apply H; right; assumption).
  apply insert_rev_front. intros y Hy.
  apply H; [right; exact Hy | left; reflexivity].
Qed.

Lemma true_in_top_k_ties t p k :
  length t = length p -> (forall a b, In a p -> In b p -> a = b) ->
  true_in_top_k t p k = np_sum (firstn k t).
Proof.
  intros Hlen Hconst. unfold true_in_top_k.
  rewrite sorted_rev_ties.
  - rewrite <- firstn_map, map_snd_combine by exact Hlen. reflexivity.
  - intros [a1 a2] [b1 b2] Ha Hb. simpl.
    apply in_combine_l in Ha, Hb. apply Hconst; assumption.
Qed.

(** When all scores of each sample are equal, the stable sort leaves the
    labels in their original order, so on a well-formed input precision@k
    is the mean over the samples of the sum of the first [k] truth values
    divided by [k]. *)
Theorem precision_with_tied_scores truevals predvals k :
  well_formed truevals predvals k ->
  Forall (fun p => forall a b, In a p -> In b p -> a = b) predvals ->
  exists s, scores_at_k truevals predvals k = Ok s /\
            precision_at_k s
            = mean_over_samples (fun t _ => np_sum (firstn k t) / INR k)
                                truevals predvals.
Proof.
  intros Hwf Htied.
  eexists. split; [apply scores_at_k_closed_form, Hwf|]. simpl.
  unfold mean_over_samples, sum_over_samples. f_equal. f_equal.
  apply sum_upto_ext. intros j Hj. unfold sample_precision.
  destruct (well_formed_sample _ _ _ j Hwf Hj) as (_ & _ & Hlen & _).
  assert (Hshape : same_shape truevals predvals) by (destruct Hwf; assumption).
  rewrite true_in_top_k_ties; [reflexivity | exact Hlen |].
  rewrite Forall_forall in Htied. apply Htied, nth_In.
  rewrite <- (same_shape_length _ _ Hshape). exact Hj.
Qed.

Lemma precision_with_tied_scores_witness :
  exists s, scores_at_k [[1; 0]; [0; 1]] [[0.5; 0.5]; [0.5; 0.5]] 1 = Ok s /\
            precision_at_k s
            = mean_over_samples (fun t _ => np_sum (firstn 1 t) / INR 1)
                                [[1; 0]; [0; 1]] [[0.5; 0.5]; [0.5; 0.5]].
Proof.
  apply (precision_with_tied_scores
           [[1; 0]; [0; 1]] [[0.5; 0.5]; [0.5; 0.5]] 1).
  - constructor.
    + discriminate.
    + repeat constructor.
    + lia.
    + repeat constructor; simpl; lra.
    + unfold np_sum. simpl. lra.
  - repeat (apply Forall_cons;
            [intros a b Ha Hb; simpl in Ha, Hb;
             destruct Ha as [<- | [<- | []]];
             destruct Hb as [<- | [<- | []]]; reflexivity|]).
    apply Forall_nil.
Defined.
